(** * Directus item service and Oracle 12 JSON helper: a shallow embedding

    The development follows two source files:
    - [api/src/database/helpers/json/dialects/oracle_12.ts]
      (module [JsonHelperOracle_12] below), and
    - [api/src/services/items.ts] (module [ItemsService] below).

    JavaScript strings are modelled as [string], objects used as maps as
    [gmap string _], arrays as [list], and asynchronous methods as functions
    in a state-and-exception monad whose state carries the storage and the
    log of collaborator calls. *)

From Stdlib Require Import ZArith Ascii.
From stdpp Require Import base option list gmap strings fin_maps.

Local Open Scope Z_scope.

(** ** JavaScript string primitives used by the sources *)

Module JsString.

(** [s.startsWith(p)] *)
Definition startsWith (p s : string) : bool := String.prefix p s.

(** [s.slice(n)] for [0 <= n] *)
Fixpoint drop (n : nat) (s : string) : string :=
  match n, s with
  | O, _ => s
  | S _, EmptyString => EmptyString
  | S k, String _ s' => drop k s'
  end.

(** [s.indexOf(sub)]: index of the first occurrence, [-1] when absent. *)
Fixpoint indexOf (sub s : string) : Z :=
  if String.prefix sub s then 0
  else match s with
       | EmptyString => -1
       | String _ s' =>
           let i := indexOf sub s' in
           if i <? 0 then -1 else 1 + i
       end.

(** Puts a character in front of the first piece of a split. *)
Definition consHead (c : ascii) (parts : list string) : list string :=
  match parts with
  | [] => [String c EmptyString]
  | h :: t => String c h :: t
  end.

(** [s.split(sep)] for a non-empty separator [sep]: the occurrences of
    [sep] are found from left to right and do not overlap.  [skip] counts
    the characters of a matched separator that are still to be passed. *)
Fixpoint splitFrom (sep : string) (skip : nat) (s : string) : list string :=
  match s with
  | EmptyString => [EmptyString]
  | String c s' =>
      match skip with
      | S k => splitFrom sep k s'
      | O =>
          if String.prefix sep s
          then EmptyString :: splitFrom sep (String.length sep - 1) s'
          else consHead c (splitFrom sep O s')
      end
  end.

Definition split (sep s : string) : list string := splitFrom sep O s.

(** [s.endsWith(p)] *)
Fixpoint endsWith (p s : string) : bool :=
  if String.eqb s p then true
  else match s with
       | EmptyString => false
       | String _ s' => endsWith p s'
       end.

(** [s.includes(sub)] *)
Fixpoint occurs (sub s : string) : bool :=
  String.prefix sub s
  || match s with
     | EmptyString => false
     | String _ s' => occurs sub s'
     end.

(** [sub] occurs in [s] with at least one character after it. *)
Fixpoint occursInside (sub s : string) : bool :=
  (String.prefix sub s && negb (String.eqb s sub))
  || match s with
     | EmptyString => false
     | String _ s' => occursInside sub s'
     end.

(** [parts.join('')] *)
Definition join (parts : list string) : string :=
  foldr String.append EmptyString parts.

End JsString.

(** ** Values, items and queries shared by both source files *)

(** A JavaScript value as the services see it.  Numbers that occur as keys
    and limits are integers. *)
Inductive Value :=
| VUndefined
| VNull
| VBool (b : bool)
| VNum (n : Z)
| VStr (s : string).

Global Instance Value_eq_dec : EqDecision Value.
Proof. solve_decision. Defined.

(** [!!v] *)
Definition truthy (v : Value) : bool :=
  match v with
  | VUndefined | VNull => false
  | VBool b => b
  | VNum n => negb (n =? 0)
  | VStr s => negb (String.eqb s "")
  end.

(** [Item = Record<string, any>] *)
Abbreviation Item := (gmap string Value).

(** [PrimaryKey = string | number]; at run time any value can show up. *)
Abbreviation PrimaryKey := Value.

(** [o[k]] *)
Definition get (o : Item) (k : string) : Value := default VUndefined (o !! k).

(** lodash [pick(o, paths)]: a new object with the listed properties that
    [o] has. *)
Definition pick (o : Item) (paths : list string) : Item :=
  foldr (fun c acc => match o !! c with
                      | Some v => <[c := v]> acc
                      | None => acc
                      end) ∅ paths.

(** The right-hand side of one field of a filter, as in [{ _in: keys }]. *)
Inductive Operand :=
| OValue (v : Value)
| OList (vs : list Value).

Global Instance Operand_eq_dec : EqDecision Operand.
Proof. solve_decision. Defined.

(** [{ field: { _op: operand, ... }, ... }]: the entries of a filter object
    are conjoined by the query compiler. *)
Abbreviation Filter := (gmap string (gmap string Operand)).

(** [Query]: the two properties the sources touch, and the remaining ones
    ([fields], [sort], [offset], ...). *)
Record Query := {
  filter : option Filter;
  limit : option Z;
  rest : gmap string Value;
}.

(** [Object.keys(query).length] *)
Definition queryKeys (q : Query) : nat :=
  ((if filter q is Some _ then 1 else 0)
   + (if limit q is Some _ then 1 else 0) + size (rest q))%nat.

Definition emptyQuery : Query := {| filter := None; limit := None; rest := ∅ |}.

(** ** [oracle_12.ts] *)

Module JsonHelperOracle_12.
Import JsString.

Record JsonFieldNode := {
  name : string;
  fieldKey : string;
  jsonPath : string;
  query : Query;
}.

(** Modelled from the spec: [generateCapitalAlias()], which is imported
    from [utils/generate-alias]; the spec describes a generator backed by
    an incrementing counter, so an alias is the value of the counter when
    it was drawn. *)
Abbreviation Alias := nat.

(** The loop [for (i = 0; i < parts.length - 1; i++) parts[i] += tok]. *)
Fixpoint addBack (tok : string) (parts : list string) : list string :=
  match parts with
  | [] => []
  | [p] => [p]
  | p :: rest => (p +:+ tok) :: addBack tok rest
  end.

(** The segments of [splitQuery] before the final [map]. *)
Definition rawParts (jsonPath : string) : list string :=
  let parts := addBack "[*]" (split "[*]" jsonPath) in
  flat_map (fun p => addBack ".*" (split ".*" p)) parts.

Definition withRoot (q : string) : string :=
  if startsWith "$" q then q else "$" +:+ q.

Definition splitQuery (jsonPath : string) : list string :=
  map withRoot (rawParts jsonPath).

(** A segment in which no wildcard token is followed by a further
    character, and a segment that ends with a wildcard token. *)
Definition noTokenInside (p : string) : Prop :=
  occursInside "[*]" p = false ∧ occursInside ".*" p = false.

Definition endsWithToken (p : string) : Prop :=
  endsWith "[*]" p || endsWith ".*" p = true.

(** What [buildJsonTable] returns: the [json_table] expression (root
    path, nested paths, innermost field path and its two column aliases),
    the aggregated field under [alias], and one condition per entry of the
    nested filter. *)
Record JsonTable := {
  tableAlias : Alias;
  rootPath : option string;
  nestedPaths : list string;
  fieldPath : option string;
  fieldPair : Alias * Alias;
  alias : Alias;
  conditions : list (string * gmap string Operand * Alias);
}.

(** [parts.slice(1, parts.length - 1)] *)
Definition middle (parts : list string) : list string :=
  removelast (tail parts).

(** [buildJsonTable(table, node, parts)] with the alias counter [next].
    The record describes the table built from two or more segments, which
    is what [splitQuery] gives for a path with a wildcard.  For a single
    segment the source binds [parts[1]], which is [undefined], in
    [knex.raw] (line 140), and knex refuses an undefined binding: the
    [fieldPath] [None] marks that binding, not a table that is returned.
    The conditions are listed by the keys of the filter, each with the
    entry of the filter as it is: [getOperation] and [getFilterType] are
    not part of this file. *)
Definition buildJsonTable (node : JsonFieldNode) (parts : list string)
    (next : Alias) : JsonTable * Alias :=
  let tAlias := next in
  let fAlias := S next in
  let entries := from_option map_to_list [] (filter (query node)) in
  let conds := imap (fun i '(p, v) => (p, v, (next + 2 + i)%nat)) entries in
  let next' := (next + 2 + length entries)%nat in
  let pair := (next', S next') in
  if decide (2 < length parts)%nat
  then ({| tableAlias := tAlias; rootPath := parts !! 0%nat;
           nestedPaths := middle parts;
           fieldPath := parts !! (length parts - 1)%nat;
           fieldPair := pair; alias := fAlias; conditions := conds |},
        (next' + 2)%nat)
  else ({| tableAlias := tAlias; rootPath := parts !! 0%nat;
           nestedPaths := [];
           fieldPath := parts !! 1%nat;
           fieldPair := pair; alias := fAlias; conditions := conds |},
        (next' + 2)%nat).

(** The calls made on the query builder [dbQuery]. *)
Inductive BuilderCall :=
| With (alias : Alias) (node : JsonFieldNode) (sub : JsonTable)
| SelectJoined (alias : Alias) (node : JsonFieldNode) (coalesceEmpty : bool)
| LeftJoin (alias : Alias) (table primaryKey : string)
| SelectExtract (nodes : list JsonFieldNode).

(** [buildWithJson(dbQuery, node, table, alias)] *)
Definition buildWithJson (node : JsonFieldNode) (alias : Alias)
    (next : Alias) : list BuilderCall * Alias :=
  let queryParts := splitQuery (jsonPath node) in
  let '(sub, next') := buildJsonTable node queryParts next in
  ([With alias node sub;
    SelectJoined alias node (bool_decide (is_Some (filter (query node))))],
   next').

Definition isSelectQuery (node : JsonFieldNode) : bool :=
  (indexOf "[*]" (jsonPath node) =? -1)
  && (indexOf ".*" (jsonPath node) =? -1)
  && (queryKeys (query node) =? 0)%nat.

Definition isJoinQuery (node : JsonFieldNode) : bool :=
  (0 <? indexOf "[*]" (jsonPath node))
  || (0 <? indexOf ".*" (jsonPath node))
  || (0 <? queryKeys (query node))%nat.

(** The loop over [joinQueries] in [preProcess]. *)
Fixpoint joinAll (table primaryKey : string) (joinQueries : list JsonFieldNode)
    (next : Alias) : list BuilderCall * Alias :=
  match joinQueries with
  | [] => ([], next)
  | node :: more =>
      let alias := next in
      let '(calls, next') := buildWithJson node alias (S next) in
      let '(calls', next'') := joinAll table primaryKey more next' in
      (calls ++ [LeftJoin alias table primaryKey] ++ calls', next'')
  end.

(** [preProcess(dbQuery, table)]: [nodes] is [this.nodes], [primaryKey] is
    [this.schema.collections[table].primary]; the result lists the calls
    made on [dbQuery] in order. *)
Definition preProcess (nodes : list JsonFieldNode) (table primaryKey : string)
    (next : Alias) : list BuilderCall * Alias :=
  let selectQueries := List.filter isSelectQuery nodes in
  let joinQueries := List.filter isJoinQuery nodes in
  let '(joins, next') :=
    if (0 <? length joinQueries)%nat
    then joinAll table primaryKey joinQueries next
    else ([], next) in
  let selects :=
    if (0 <? length selectQueries)%nat
    then [SelectExtract nodes]
    else [] in
  (joins ++ selects, next').

(** The nodes given to the derived-table strategy and the nodes extracted
    directly in the main select list, as the builder calls show them. *)
Definition joinedNodes (calls : list BuilderCall) : list JsonFieldNode :=
  flat_map (fun c => match c with
                     | With _ n _ => [n]
                     | _ => []
                     end) calls.

Definition extractedNodes (calls : list BuilderCall) : list JsonFieldNode :=
  flat_map (fun c => match c with
                     | SelectExtract ns => ns
                     | _ => []
                     end) calls.

(** The classification in the words of the specification: select-only
    when the path has no wildcard and the nested query is empty. *)
Definition selectOnly (node : JsonFieldNode) : bool :=
  (indexOf "[*]" (jsonPath node) =? -1)
  && (indexOf ".*" (jsonPath node) =? -1)
  && (queryKeys (query node) =? 0)%nat.

End JsonHelperOracle_12.

(** The path of the node has a wildcard token behind its first character:
    the first two tests of [joinQueries] in [preProcess]. *)
Definition wildcardPath (node : JsonHelperOracle_12.JsonFieldNode) : bool :=
  (0 <? JsString.indexOf "[*]" (JsonHelperOracle_12.jsonPath node))
  || (0 <? JsString.indexOf ".*" (JsonHelperOracle_12.jsonPath node)).


(** ** Effects: storage, collaborator calls and exceptions *)

(** A value that is either a single element or an array, as in
    [PrimaryKey | PrimaryKey[]]. *)
Inductive Shape (A : Type) :=
| One (a : A)
| Many (l : list A).
Arguments One {A} a.
Arguments Many {A} l.

(** [Array.isArray(x) ? x : [x]] *)
Definition toArray {A} (x : Shape A) : list A :=
  match x with
  | One a => [a]
  | Many l => l
  end.

Definition isArray {A} (x : Shape A) : bool :=
  match x with
  | One _ => false
  | Many _ => true
  end.

(** The result of [readByKey]: [Item | Item[]], where the single item is
    [undefined] when the array it is read from is empty. *)
Inductive Found :=
| FoundOne (item : option Item)
| FoundMany (items : list Item).

Record Accountability := {
  user : Value;
  role : Value;
  admin : option bool;
  ip : Value;
  userAgent : Value;
}.

Inductive Action := CREATE | UPDATE | DELETE.

Module Activity.
Record Record_ := {
  action : Action;
  action_by : Value;
  collection : string;
  ip : Value;
  user_agent : Value;
  item : PrimaryKey;
}.
End Activity.

(** What can be thrown: the exception of [items.ts], the errors of the
    collaborators ([ForbiddenException] from the gate, [Failure] for any
    other, such as a failing statement), the [TypeError] of the run time,
    and [RecursionBudget] for the recursion bound of the model of
    [update]. *)
Inductive Exception :=
| InvalidPayloadException (message : string)
| ForbiddenException
| TypeError (message : string)
| Failure (message : string)
| RecursionBudget.

Inductive Outcome (A : Type) :=
| Returns (a : A)
| Throws (e : Exception).
Arguments Returns {A} a.
Arguments Throws {A} e.

(** The calls the service makes on its collaborators, the statements it
    issues and the marks of its transactions, in the order they are made.
    The lookups of the schema inspector ([primary], [columns],
    [columnInfo]) are not among them: [Env] gives their results as
    functions of the collection. *)
Inductive Call :=
| PayloadProcessM2O (payloads : Shape Item)
| PayloadProcessValues (operation : string) (payloads : Shape Item)
| PayloadProcessO2M (payloads : Shape Item)
| AuthProcessValues (operation collection : string) (payloads : Shape Item)
| AuthCheckAccess (operation collection : string) (keys : Shape PrimaryKey)
| AuthProcessAST (operation : option string)
| GetASTFromQuery (collection : string) (query : Query) (operation : option string)
| RunAST
| Insert (rows : list Item) (into returning : string)
| InsertActivity (records : list Activity.Record_)
| Update (collection : string) (row : Item) (field : string) (keys : list PrimaryKey)
| Delete (collection field : string) (keys : list PrimaryKey)
| SelectFirst (field from : string)
| Begin
| Commit
| Rollback.

Record World (DB : Type) := {
  db : DB;
  log : list Call;
}.
Arguments db {DB} w.
Arguments log {DB} w.

(** A collaborator reads and writes the storage and returns or throws. *)
Definition Ext (DB A : Type) : Type := DB → Outcome A * DB.

(** An asynchronous method of the service. *)
Definition M (DB A : Type) : Type := World DB → Outcome A * World DB.

Definition ret {DB A} (a : A) : M DB A := fun w => (Returns a, w).

Definition throw {DB A} (e : Exception) : M DB A := fun w => (Throws e, w).

Definition bind {DB A B} (m : M DB A) (k : A → M DB B) : M DB B :=
  fun w => match m w with
           | (Returns a, w') => k a w'
           | (Throws e, w') => (Throws e, w')
           end.

Declare Scope service_scope.
Delimit Scope service_scope with service.
Notation "'let*' x ':=' m 'in' k" := (bind m (fun x => k))
  (at level 10, x name, m at level 100, k at level 200) : service_scope.

(** [await f(...)]: the call is logged, then made on the current storage. *)
Definition call {DB A} (c : Call) (f : Ext DB A) : M DB A :=
  fun w => let '(r, d) := f (db w) in
           (r, {| db := d; log := log w ++ [c] |}).

(** [knex.transaction(async (trx) => body)]: commit when [body] returns,
    restore the storage of the start and rethrow when it throws.  A
    transaction opened on [trx] nests in the same way. *)
Definition transaction {DB A} (body : M DB A) : M DB A :=
  fun w =>
    match body {| db := db w; log := log w ++ [Begin] |} with
    | (Returns a, w') => (Returns a, {| db := db w'; log := log w' ++ [Commit] |})
    | (Throws e, w') => (Throws e, {| db := db w; log := log w' ++ [Rollback] |})
    end.

(** [for (const x of l) acc = await f(acc, x)] *)
Fixpoint forOf {DB A S} (l : list A) (f : S → A → M DB S) (acc : S) : M DB S :=
  match l with
  | [] => ret acc
  | x :: more => bind (f acc x) (forOf more f)
  end.

(** ** Collaborators of [items.ts] *)

Module Payload.
(** [PayloadService]; the methods taking one payload or an array are the
    two overloads of the class. *)
Record Service (DB : Type) := {
  processM2O : list Item → Ext DB (list Item);
  processM2O_1 : Item → Ext DB Item;
  processValues : string → list Item → Ext DB (list Item);
  processValues_1 : string → Item → Ext DB Item;
  processO2M : list Item → Ext DB unit;
  processO2M_1 : Item → Ext DB unit;
}.
Arguments processM2O {DB} s. Arguments processM2O_1 {DB} s.
Arguments processValues {DB} s. Arguments processValues_1 {DB} s.
Arguments processO2M {DB} s. Arguments processO2M_1 {DB} s.
End Payload.

Module Authorization.
(** [AuthorizationService], the Authorization Gate. *)
Record Service (DB AST : Type) := {
  processValues : string → string → list Item → Ext DB (list Item);
  processValues_1 : string → string → Item → Ext DB Item;
  checkAccess : string → string → Shape PrimaryKey → Ext DB unit;
  processAST : AST → option string → Ext DB AST;
}.
Arguments processValues {DB AST} s. Arguments processValues_1 {DB AST} s.
Arguments checkAccess {DB AST} s. Arguments processAST {DB AST} s.
End Authorization.

Module Knex.
(** The statements the service issues on [knex] or [trx]. *)
Record Statements (DB : Type) := {
  insert : list Item → string → string → Ext DB (list PrimaryKey);
  insertActivity : list Activity.Record_ → Ext DB unit;
  update : string → Item → string → list PrimaryKey → Ext DB unit;
  delete : string → string → list PrimaryKey → Ext DB unit;
  selectFirst : string → string → Ext DB (option Item);
}.
Arguments insert {DB} s. Arguments insertActivity {DB} s.
Arguments update {DB} s. Arguments delete {DB} s.
Arguments selectFirst {DB} s.
End Knex.

(** Everything [items.ts] imports: the schema inspector, the two services,
    the AST builder and runner, [getDefaultValue] and the statements. *)
Record Env (DB AST Column : Type) := {
  primary : string → string;
  columns : string → list string;
  columnInfo : string → list Column;
  columnName : Column → string;
  getDefaultValue : Column → Value;
  PayloadService : string → option Accountability → Payload.Service DB;
  AuthorizationService : option Accountability → Authorization.Service DB AST;
  getASTFromQuery :
    string → Query → option Accountability → option string → Ext DB AST;
  runAST : AST → Ext DB (list Item);
  knex : Knex.Statements DB;
}.
Arguments primary {DB AST Column} e. Arguments columns {DB AST Column} e.
Arguments columnInfo {DB AST Column} e. Arguments columnName {DB AST Column} e.
Arguments getDefaultValue {DB AST Column} e.
Arguments PayloadService {DB AST Column} e.
Arguments AuthorizationService {DB AST Column} e.
Arguments getASTFromQuery {DB AST Column} e.
Arguments runAST {DB AST Column} e. Arguments knex {DB AST Column} e.

(** ** [items.ts] *)

Module ItemsService.
Local Open Scope service_scope.

(** The three overloads of [update]. *)
Inductive UpdateArgs :=
| UpdateKeys (data : Item) (keys : list PrimaryKey)
| UpdateKey (data : Item) (key : PrimaryKey)
| UpdateBatch (data : list Item).

(** [accountability && accountability.admin !== true] *)
Definition notAdmin (accountability : option Accountability) : bool :=
  match accountability with
  | Some a => negb (bool_decide (admin a = Some true))
  | None => false
  end.

(** [accountability && accountability.admin === false] *)
Definition adminIsFalse (accountability : option Accountability) : bool :=
  match accountability with
  | Some a => bool_decide (admin a = Some false)
  | None => false
  end.

(** [accountability && accountability.admin !== false] *)
Definition adminIsNotFalse (accountability : option Accountability) : bool :=
  match accountability with
  | Some a => negb (bool_decide (admin a = Some false))
  | None => false
  end.

Definition activityRecords (act : Action) (a : Accountability)
    (collection : string) (keys : list PrimaryKey) : list Activity.Record_ :=
  map (fun key => {| Activity.action := act;
                     Activity.action_by := user a;
                     Activity.collection := collection;
                     Activity.ip := ip a;
                     Activity.user_agent := userAgent a;
                     Activity.item := key |}) keys.

(** [{ ...(query.filter || {}), [primaryKeyField]: { _in: keys } }] *)
Definition filterWithKeys (f : option Filter) (primaryKeyField : string)
    (keys : list PrimaryKey) : Filter :=
  <[primaryKeyField := {["_in" := OList keys]}]> (default ∅ f).

(** [{ ...query, filter: ... }] *)
Definition queryWithFilter (query : Query) (primaryKeyField : string)
    (keys : list PrimaryKey) : Query :=
  {| filter := Some (filterWithKeys (filter query) primaryKeyField keys);
     limit := limit query;
     rest := rest query |}.

(** The loop of [readSingleton] over the column information. *)
Definition defaultsOf {Column} (columnName : Column → string)
    (getDefaultValue : Column → Value) (columns : list Column) : Item :=
  foldl (fun defaults column =>
           <[columnName column := getDefaultValue column]> defaults) ∅ columns.

Section Service.
Context {DB AST Column : Type}.
Variable env : Env DB AST Column.
(** [this.collection] and [this.accountability] *)
Variable collection : string.
Variable accountability : option Accountability.

Definition create (data : Shape Item) : M DB (Shape PrimaryKey) :=
  let primaryKeyField := primary env collection in
  let columns := columns env collection in
  let payloads := toArray data in
  let* savedPrimaryKeys :=
    transaction (
      let payloadService := PayloadService env collection accountability in
      let authorizationService := AuthorizationService env accountability in
      let* payloads :=
        call (PayloadProcessM2O (Many payloads))
             (Payload.processM2O payloadService payloads) in
      let payloadsWithoutAliases :=
        map (fun payload => pick payload columns) payloads in
      let* payloadsWithoutAliases :=
        call (PayloadProcessValues "create" (Many payloadsWithoutAliases))
             (Payload.processValues payloadService "create"
                payloadsWithoutAliases) in
      let* payloads :=
        if notAdmin accountability
        then call (AuthProcessValues "create" collection (Many payloads))
                  (Authorization.processValues authorizationService
                     "create" collection payloads)
        else ret payloads in
      let* primaryKeys :=
        call (Insert payloadsWithoutAliases collection primaryKeyField)
             (Knex.insert (knex env) payloadsWithoutAliases collection
                primaryKeyField) in
      let* _ :=
        match accountability with
        | Some a =>
            let records := activityRecords CREATE a collection primaryKeys in
            call (InsertActivity records)
                 (Knex.insertActivity (knex env) records)
        | None => ret tt
        end in
      let payloads :=
        imap (fun index payload =>
                <[primaryKeyField := nth index primaryKeys VUndefined]> payload)
             payloads in
      let* _ :=
        call (PayloadProcessO2M (Many payloads))
             (Payload.processO2M payloadService payloads) in
      ret primaryKeys) in
  ret (match data with
       | Many _ => Many savedPrimaryKeys
       | One _ => One (nth 0 savedPrimaryKeys VUndefined)
       end).

Definition readByQuery (query : Query) : M DB (list Item) :=
  let payloadService := PayloadService env collection None in
  let authorizationService := AuthorizationService env accountability in
  let* ast :=
    call (GetASTFromQuery collection query None)
         (getASTFromQuery env collection query accountability None) in
  let* ast :=
    if adminIsFalse accountability
    then call (AuthProcessAST None)
              (Authorization.processAST authorizationService ast None)
    else ret ast in
  let* records := call RunAST (runAST env ast) in
  let* processedRecords :=
    call (PayloadProcessValues "read" (Many records))
         (Payload.processValues payloadService "read" records) in
  ret processedRecords.

Definition readByKey (key : Shape PrimaryKey) (query : Query)
    (operation : string) : M DB Found :=
  let payloadService := PayloadService env collection None in
  let primaryKeyField := primary env collection in
  let keys := toArray key in
  let queryWithFilter := queryWithFilter query primaryKeyField keys in
  let* ast :=
    call (GetASTFromQuery collection queryWithFilter (Some operation))
         (getASTFromQuery env collection queryWithFilter accountability
            (Some operation)) in
  let* ast :=
    if notAdmin accountability
    then
      let authorizationService := AuthorizationService env accountability in
      call (AuthProcessAST (Some operation))
           (Authorization.processAST authorizationService ast (Some operation))
    else ret ast in
  let* records := call RunAST (runAST env ast) in
  let* processedRecords :=
    call (PayloadProcessValues "read" (Many records))
         (Payload.processValues payloadService "read" records) in
  ret (if isArray key
       then FoundMany processedRecords
       else FoundOne (head processedRecords)).

(** The branch [if (data && key) { ... return key; }] of [update].  Its
    gate is built without the transaction handle (lines 186-188), so in
    the source it reads through the connection of the service; here there
    is one storage, and inside the transaction of a batch the gate is run
    on the storage of that transaction. *)
Definition updateSame (data : Item) (key : Shape PrimaryKey)
    : M DB (Shape PrimaryKey) :=
  let primaryKeyField := primary env collection in
  let columns := columns env collection in
  let keys := toArray key in
  let payload := data in
  let* payload :=
    if notAdmin accountability
    then
      let authorizationService := AuthorizationService env accountability in
      let* _ :=
        call (AuthCheckAccess "update" collection (Many keys))
             (Authorization.checkAccess authorizationService "update"
                collection (Many keys)) in
      call (AuthProcessValues "validate" collection (One payload))
           (Authorization.processValues_1 authorizationService "validate"
              collection payload)
    else ret payload in
  let* _ :=
    transaction (
      let payloadService := PayloadService env collection accountability in
      let* payload :=
        call (PayloadProcessM2O (One payload))
             (Payload.processM2O_1 payloadService payload) in
      let* payload :=
        call (PayloadProcessValues "update" (One payload))
             (Payload.processValues_1 payloadService "update" payload) in
      let payloadWithoutAliases := pick payload columns in
      let* _ :=
        call (Update collection payloadWithoutAliases primaryKeyField keys)
             (Knex.update (knex env) collection payloadWithoutAliases
                primaryKeyField keys) in
      call (PayloadProcessO2M (One payload))
           (Payload.processO2M_1 payloadService payload)) in
  ret key.

(** [data && key] for the three overloads: an object or array is truthy,
    an absent key is [undefined]. *)
Definition keyed (args : UpdateArgs) : option (Item * Shape PrimaryKey) :=
  match args with
  | UpdateKeys data keys => Some (data, Many keys)
  | UpdateKey data key => if truthy key then Some (data, One key) else None
  | UpdateBatch _ => None
  end.

(** [update]; the call [itemsService.update(payload, key)] of the batch
    loop is the recursive call, on a service with the same collection
    and accountability whose [knex] is the open transaction.  [budget]
    bounds the depth of the recursion. *)
Fixpoint updateRec (budget : nat) (args : UpdateArgs)
    : M DB (Shape PrimaryKey) :=
  let primaryKeyField := primary env collection in
  match keyed args with
  | Some (data, key) => updateSame data key
  | None =>
      let* keys :=
        transaction (
          match args with
          | UpdateBatch data =>
              forOf data
                (fun keys single =>
                   let payload := single in
                   let key := get payload primaryKeyField in
                   if negb (truthy key)
                   then throw (InvalidPayloadException
                                 "Primary key is missing in update payload.")
                   else
                     let keys := keys ++ [key] in
                     let* _ :=
                       match budget with
                       | S budget' => updateRec budget' (UpdateKey payload key)
                       | O => throw RecursionBudget
                       end in
                     ret keys) []
          | _ => throw (TypeError "data is not iterable")
          end) in
      ret (Many keys)
  end.

Definition update (args : UpdateArgs) : M DB (Shape PrimaryKey) :=
  updateRec 1 args.

Definition delete (key : Shape PrimaryKey) : M DB (Shape PrimaryKey) :=
  let keys := toArray key in
  let primaryKeyField := primary env collection in
  let* _ :=
    if adminIsNotFalse accountability
    then
      let authorizationService := AuthorizationService env accountability in
      call (AuthCheckAccess "delete" collection key)
           (Authorization.checkAccess authorizationService "delete"
              collection key)
    else ret tt in
  let* _ :=
    transaction (
      let* _ :=
        call (Delete collection primaryKeyField keys)
             (Knex.delete (knex env) collection primaryKeyField keys) in
      match accountability with
      | Some a =>
          let records := activityRecords DELETE a collection keys in
          call (InsertActivity records)
               (Knex.insertActivity (knex env) records)
      | None => ret tt
      end) in
  ret key.

Definition readSingleton (query : Query) : M DB Item :=
  let query := {| filter := filter query; limit := Some 1;
                  rest := rest query |} in
  let* records := readByQuery query in
  match head records with
  | None =>
      let columns := columnInfo env collection in
      ret (defaultsOf (columnName env) (getDefaultValue env) columns)
  | Some record => ret record
  end.

Definition upsertSingleton (data : Item) : M DB (Shape PrimaryKey) :=
  let primaryKeyField := primary env collection in
  let* record :=
    call (SelectFirst primaryKeyField collection)
         (Knex.selectFirst (knex env) primaryKeyField collection) in
  match record with
  | Some record => update (UpdateKey data (get record "id"))
  | None => create (One data)
  end.

End Service.
End ItemsService.

(** ** A small concrete environment

    An in-memory storage with pass-through payload processing and a gate
    that removes the field [secret] from written payloads and refuses
    access to the collection [locked].  It is used to
    run the service on concrete inputs. *)

Module Demo.

Record Store := {
  rows : gmap string (list Item);
  activity : list Activity.Record_;
}.

Definition table (d : Store) (c : string) : list Item :=
  default [] (rows d !! c).

Definition ok {A} (a : A) : Ext Store A := fun d => (Returns a, d).

Definition setTable (d : Store) (c : string) (l : list Item) : Store :=
  {| rows := <[c := l]> (rows d); activity := activity d |}.

Definition insert (new : list Item) (into returning : string)
    : Ext Store (list PrimaryKey) :=
  fun d =>
    let old := table d into in
    let keys := imap (fun i _ => VNum (Z.of_nat (length old + i + 1))) new in
    let stored := zip_with (fun r k => <[returning := k]> r) new keys in
    (Returns keys, setTable d into (old ++ stored)).

Definition insertActivity (records : list Activity.Record_) : Ext Store unit :=
  fun d => (Returns tt, {| rows := rows d; activity := activity d ++ records |}).

Definition update (c : string) (row : Item) (field : string)
    (keys : list PrimaryKey) : Ext Store unit :=
  fun d =>
    (Returns tt,
     setTable d c
       (map (fun r => if bool_decide (get r field ∈ keys) then row ∪ r else r)
            (table d c))).

Definition delete (c field : string) (keys : list PrimaryKey) : Ext Store unit :=
  fun d =>
    (Returns tt,
     setTable d c
       (List.filter (fun r => negb (bool_decide (get r field ∈ keys)))
                    (table d c))).

Definition selectFirst (field from : string) : Ext Store (option Item) :=
  fun d => (Returns ((fun r => pick r [field]) <$> head (table d from)), d).

Definition payloadService : Payload.Service Store :=
  {| Payload.processM2O := ok;
     Payload.processM2O_1 := ok;
     Payload.processValues := fun _ => ok;
     Payload.processValues_1 := fun _ => ok;
     Payload.processO2M := fun _ => ok tt;
     Payload.processO2M_1 := fun _ => ok tt |}.

Definition AST : Type := string * Query.

Definition authorizationService : Authorization.Service Store AST :=
  {| Authorization.processValues :=
       fun _ _ payloads => ok (map (base.delete "secret") payloads);
     Authorization.processValues_1 :=
       fun _ _ payload => ok (base.delete "secret" payload);
     Authorization.checkAccess :=
       fun _ collection _ =>
         if String.eqb collection "locked"
         then fun d => (Throws ForbiddenException, d)
         else ok tt;
     Authorization.processAST := fun ast _ => ok ast |}.

Definition matches (f : Filter) (r : Item) : bool :=
  forallb (fun '(field, cond) =>
             match cond !! "_in" with
             | Some (OList vs) => bool_decide (get r field ∈ vs)
             | _ => true
             end) (map_to_list f).

Definition runQuery (ast : AST) : Ext Store (list Item) :=
  fun d =>
    let found := List.filter (matches (default ∅ (filter ast.2))) (table d ast.1) in
    (Returns (match limit ast.2 with
              | Some n => take (Z.to_nat n) found
              | None => found
              end), d).

Definition Column : Type := string * Value.

Definition env : Env Store AST Column :=
  {| primary := fun c => if String.eqb c "pages" then "slug" else "id";
     columns := fun _ => ["id"; "slug"; "title"; "secret"];
     columnInfo := fun _ => [("id", VNull); ("slug", VNull);
                             ("title", VStr "untitled"); ("secret", VNull)];
     columnName := fst;
     getDefaultValue := snd;
     PayloadService := fun _ _ => payloadService;
     AuthorizationService := fun _ => authorizationService;
     getASTFromQuery := fun c q _ _ => ok (c, q);
     runAST := runQuery;
     knex := {| Knex.insert := insert;
                Knex.insertActivity := insertActivity;
                Knex.update := update;
                Knex.delete := delete;
                Knex.selectFirst := selectFirst |} |}.

Definition editor : Accountability :=
  {| user := VStr "u1"; role := VStr "editor"; admin := Some false;
     ip := VStr "127.0.0.1"; userAgent := VStr "test" |}.

Definition empty : World Store :=
  {| db := {| rows := ∅; activity := [] |}; log := [] |}.

Definition article (title secret : string) : Item :=
  {["title" := VStr title; "secret" := VStr secret]}.

Definition stored (id : Z) (title secret : string) : Item :=
  <["id" := VNum id]> (article title secret).

Definition withArticles (l : list Item) : World Store :=
  {| db := {| rows := {["articles" := l]}; activity := [] |}; log := [] |}.

Definition missingKey : Exception :=
  InvalidPayloadException "Primary key is missing in update payload.".

End Demo.

(** ** Observations on the log *)

(** The calls a method makes when started on storage [d]. *)
Definition callsOf {DB A} (m : M DB A) (d : DB) : list Call :=
  log (m {| db := d; log := [] |}).2.

(** A call into the Authorization Gate for a write: [processValues] or
    [checkAccess]. *)
Definition isGate (c : Call) : bool :=
  match c with
  | AuthProcessValues _ _ _ | AuthCheckAccess _ _ _ => true
  | _ => false
  end.

(** An insert, update or delete statement on a collection. *)
Definition isMutation (c : Call) : bool :=
  match c with
  | Insert _ _ _ | Update _ _ _ _ | Delete _ _ _ => true
  | _ => false
  end.

(** Every mutation statement of [calls] comes after a gate call; [seen]
    tells whether a gate call has been made already. *)
Fixpoint gatedFrom (seen : bool) (calls : list Call) : bool :=
  match calls with
  | [] => true
  | c :: more =>
      if isMutation c then seen && gatedFrom seen more
      else gatedFrom (seen || isGate c) more
  end.

(** The rows handed to the insert statements of [calls]. *)
Definition insertedRows (calls : list Call) : list (list Item) :=
  flat_map (fun c => match c with
                     | Insert rows _ _ => [rows]
                     | _ => []
                     end) calls.

(** The payloads the gate returned for the payloads it was given. *)
Definition gateInputs (calls : list Call) : list (Shape Item) :=
  flat_map (fun c => match c with
                     | AuthProcessValues _ _ payloads => [payloads]
                     | _ => []
                     end) calls.

(** The queries handed to the AST builder by [calls]. *)
Definition executedQueries (calls : list Call) : list Query :=
  flat_map (fun c => match c with
                     | GetASTFromQuery _ q _ => [q]
                     | _ => []
                     end) calls.

(** Every condition of the filter [caller] is still present in the filter
    of the query [executed]. *)
Definition preservesFilter (caller : Filter) (executed : Query) : Prop :=
  ∀ field cond,
    caller !! field = Some cond →
    ∃ cond', default ∅ (filter executed) !! field = Some cond' ∧ cond ⊆ cond'.


(** The collaborators of the write methods return on every input. *)
Definition returns {DB A} (f : Ext DB A) : Prop :=
  ∀ d, ∃ a d', f d = (Returns a, d').

Definition quiet {DB AST Column} (env : Env DB AST Column)
    (collection : string) (accountability : option Accountability) : Prop :=
  let payloadService := PayloadService env collection accountability in
  let authorizationService := AuthorizationService env accountability in
  (∀ l, returns (Payload.processM2O payloadService l))
  ∧ (∀ p, returns (Payload.processM2O_1 payloadService p))
  ∧ (∀ operation l, returns (Payload.processValues payloadService operation l))
  ∧ (∀ operation p, returns (Payload.processValues_1 payloadService operation p))
  ∧ (∀ l, returns (Payload.processO2M payloadService l))
  ∧ (∀ p, returns (Payload.processO2M_1 payloadService p))
  ∧ (∀ operation l,
       returns (Authorization.processValues authorizationService operation
                  collection l))
  ∧ (∀ operation p,
       returns (Authorization.processValues_1 authorizationService operation
                  collection p))
  ∧ (∀ operation keys,
       returns (Authorization.checkAccess authorizationService operation
                  collection keys))
  ∧ (∀ rows field, returns (Knex.insert (knex env) rows collection field))
  ∧ (∀ records, returns (Knex.insertActivity (knex env) records))
  ∧ (∀ row field keys,
       returns (Knex.update (knex env) collection row field keys))
  ∧ (∀ field keys, returns (Knex.delete (knex env) collection field keys)).

(** The arguments on which [update] does not throw by itself: keys given as
    an array, a single truthy key, or a batch whose elements all carry a
    truthy primary key. *)
Definition wellKeyed (primaryKeyField : string) (args : ItemsService.UpdateArgs)
    : Prop :=
  match args with
  | ItemsService.UpdateKeys _ _ => True
  | ItemsService.UpdateKey _ key => truthy key = true
  | ItemsService.UpdateBatch data =>
      Forall (fun single => truthy (get single primaryKeyField) = true) data
  end.

(** A method returns on every state. *)
Definition total {DB A} (m : M DB A) : Prop :=
  ∀ w, ∃ a w', m w = (Returns a, w').

(** One round of the batch loop of [update], with its recursive call taken
    to the keyed branch. *)
Definition batchStep {DB AST Column} (env : Env DB AST Column)
    (collection : string) (accountability : option Accountability)
    (keys : list PrimaryKey) (single : Item) : M DB (list PrimaryKey) :=
  let key := get single (primary env collection) in
  if negb (truthy key)
  then throw (InvalidPayloadException "Primary key is missing in update payload.")
  else bind (ItemsService.updateSame env collection accountability single (One key))
            (fun _ => ret (keys ++ [key])).

(** A method only adds calls to the log. *)
Definition extends {DB A} (m : M DB A) : Prop :=
  ∀ w, ∃ l, log (m w).2 = log w ++ l.

(** Every element of [l] but the last satisfies [P], the last one [Q]. *)
Fixpoint initLast {A} (P Q : A → Prop) (l : list A) : Prop :=
  match l with
  | [] => True
  | [x] => Q x
  | x :: more => P x ∧ initLast P Q more
  end.

(** ** Further observations on the calls *)

(** Every call a method adds to the log satisfies [P]. *)
Definition emits {DB A} (P : Call → Prop) (m : M DB A) : Prop :=
  ∀ w, ∃ l, log (m w).2 = log w ++ l ∧ Forall P l.

(** The outcome of a method and the storage it leaves do not depend on the
    log it starts with. *)
Definition logFree {DB A} (m : M DB A) : Prop :=
  ∀ d l l',
    (m {| db := d; log := l |}).1 = (m {| db := d; log := l' |}).1
    ∧ db (m {| db := d; log := l |}).2 = db (m {| db := d; log := l' |}).2.

(** The activity records written by [calls]. *)
Definition activityOf (calls : list Call) : list (list Activity.Record_) :=
  flat_map (fun c => match c with
                     | InsertActivity records => [records]
                     | _ => []
                     end) calls.


(** The rows of the update statements of [calls]. *)
Definition updatedRows (calls : list Call) : list Item :=
  flat_map (fun c => match c with
                     | Update _ row _ _ => [row]
                     | _ => []
                     end) calls.

(** A call of the read pipeline: building the AST, rewriting it in the
    gate, running it, and read processing of the records. *)
Definition isReadCall (c : Call) : bool :=
  match c with
  | GetASTFromQuery _ _ _ | AuthProcessAST _ | RunAST => true
  | PayloadProcessValues operation _ => String.eqb operation "read"
  | _ => false
  end.

(** A call that writes: an insert, update or delete statement, the write
    of activity records, the relational writes of the payload service, or
    a mark of a transaction. *)
Definition isWrite (c : Call) : bool :=
  match c with
  | Insert _ _ _ | Update _ _ _ _ | Delete _ _ _ | InsertActivity _ => true
  | PayloadProcessM2O _ | PayloadProcessO2M _ => true
  | Begin | Commit | Rollback => true
  | _ => false
  end.

Definition isProcessAST (c : Call) : bool :=
  match c with
  | AuthProcessAST _ => true
  | _ => false
  end.

Definition isReturns {A S} (r : Outcome A * S) : bool :=
  match r.1 with
  | Returns _ => true
  | Throws _ => false
  end.

(** An update statement of the call carries only fields named in
    [columns]. *)
Definition rowWithin (columns : list string) (c : Call) : Prop :=
  match c with
  | Update _ row _ _ => ∀ k, is_Some (row !! k) → k ∈ columns
  | _ => True
  end.

(** The calls of [update]: the access check and validation of the gate,
    the payload processing of one payload, the update statement, and the
    transaction marks. *)
Definition isUpdateCall (c : Call) : bool :=
  match c with
  | AuthCheckAccess operation _ (Many _) => String.eqb operation "update"
  | AuthProcessValues operation _ (One _) => String.eqb operation "validate"
  | PayloadProcessValues operation (One _) => String.eqb operation "update"
  | PayloadProcessM2O (One _) | PayloadProcessO2M (One _) => true
  | Update _ _ _ _ | Begin | Commit | Rollback => true
  | _ => false
  end.

(** ** A gate that refuses every write

    The concrete environment with an Authorization Gate whose methods all
    throw [ForbiddenException]. *)

Module Refusing.

Definition forbid {A} : Ext Demo.Store A :=
  fun d => (Throws ForbiddenException, d).

Definition authorizationService : Authorization.Service Demo.Store Demo.AST :=
  {| Authorization.processValues := fun _ _ _ => forbid;
     Authorization.processValues_1 := fun _ _ _ => forbid;
     Authorization.checkAccess := fun _ _ _ => forbid;
     Authorization.processAST := fun _ _ => forbid |}.

Definition env : Env Demo.Store Demo.AST Demo.Column :=
  {| primary := primary Demo.env;
     columns := columns Demo.env;
     columnInfo := columnInfo Demo.env;
     columnName := columnName Demo.env;
     getDefaultValue := getDefaultValue Demo.env;
     PayloadService := PayloadService Demo.env;
     AuthorizationService := fun _ => authorizationService;
     getASTFromQuery := getASTFromQuery Demo.env;
     runAST := runAST Demo.env;
     knex := knex Demo.env |}.

Definition administrator : Accountability :=
  {| user := VStr "root"; role := VStr "admin"; admin := Some true;
     ip := VStr "127.0.0.1"; userAgent := VStr "test" |}.

(** A gate that grants access and refuses every value. *)
Definition validating : Authorization.Service Demo.Store Demo.AST :=
  {| Authorization.processValues := fun _ _ _ => forbid;
     Authorization.processValues_1 := fun _ _ _ => forbid;
     Authorization.checkAccess := fun _ _ _ => Demo.ok tt;
     Authorization.processAST := fun ast _ => Demo.ok ast |}.

Definition validatingEnv : Env Demo.Store Demo.AST Demo.Column :=
  {| primary := primary Demo.env;
     columns := columns Demo.env;
     columnInfo := columnInfo Demo.env;
     columnName := columnName Demo.env;
     getDefaultValue := getDefaultValue Demo.env;
     PayloadService := PayloadService Demo.env;
     AuthorizationService := fun _ => validating;
     getASTFromQuery := getASTFromQuery Demo.env;
     runAST := runAST Demo.env;
     knex := knex Demo.env |}.

End Refusing.

(** ** A storage that returns one key for an insert

    The concrete environment on a storage whose insert statement stores
    every row and returns the key of the first one only, as a database
    without a [returning] clause does. *)

Module FirstId.

Definition insert (new : list Item) (into returning : string)
    : Ext Demo.Store (list PrimaryKey) :=
  fun d =>
    match Demo.insert new into returning d with
    | (Returns keys, d') => (Returns (take 1 keys), d')
    | (Throws e, d') => (Throws e, d')
    end.

Definition env : Env Demo.Store Demo.AST Demo.Column :=
  {| primary := primary Demo.env;
     columns := columns Demo.env;
     columnInfo := columnInfo Demo.env;
     columnName := columnName Demo.env;
     getDefaultValue := getDefaultValue Demo.env;
     PayloadService := PayloadService Demo.env;
     AuthorizationService := AuthorizationService Demo.env;
     getASTFromQuery := getASTFromQuery Demo.env;
     runAST := runAST Demo.env;
     knex := {| Knex.insert := insert;
                Knex.insertActivity := Knex.insertActivity (knex Demo.env);
                Knex.update := Knex.update (knex Demo.env);
                Knex.delete := Knex.delete (knex Demo.env);
                Knex.selectFirst := Knex.selectFirst (knex Demo.env) |} |}.

End FirstId.

(** * Proofs *)

(** ** The monad *)

Section MonadFacts.
Context {DB : Type}.

Lemma bind_returns {A B} (m : M DB A) (k : A → M DB B) w a w' :
  m w = (Returns a, w') → bind m k w = k a w'.
Proof. intros H. unfold bind. by rewrite H. Qed.

Lemma bind_inv_returns {A B} (m : M DB A) (k : A → M DB B) w b w2 :
  bind m k w = (Returns b, w2) →
  ∃ a w1, m w = (Returns a, w1) ∧ k a w1 = (Returns b, w2).
Proof.
  unfold bind. destruct (m w) as [[a|e] w1]; [eauto | discriminate].
Qed.

Lemma call_returns {A} c (f : Ext DB A) w a d :
  f (db w) = (Returns a, d) →
  call c f w = (Returns a, {| db := d; log := log w ++ [c] |}).
Proof. intros H. unfold call. by rewrite H. Qed.

Lemma call_throws {A} c (f : Ext DB A) w e d :
  f (db w) = (Throws e, d) →
  call c f w = (Throws e, {| db := d; log := log w ++ [c] |}).
Proof. intros H. unfold call. by rewrite H. Qed.

Lemma call_returns_at {A} c (f : Ext DB A) d l a d' :
  f d = (Returns a, d') →
  call c f {| db := d; log := l |}
  = (Returns a, {| db := d'; log := l ++ [c] |}).
Proof. intros H. unfold call. cbn. by rewrite H. Qed.

(** A transaction that throws leaves the storage as it found it. *)
Lemma transaction_throws_db {A} (body : M DB A) w e w' :
  transaction body w = (Throws e, w') → db w' = db w.
Proof.
  unfold transaction.
  destruct (body _) as [[a|e'] w1]; intros [= <- <-]; reflexivity.
Qed.

Lemma transaction_inv_returns {A} (body : M DB A) w a w' :
  transaction body w = (Returns a, w') →
  ∃ w1, body {| db := db w; log := log w ++ [Begin] |} = (Returns a, w1)
        ∧ w' = {| db := db w1; log := log w1 ++ [Commit] |}.
Proof.
  unfold transaction.
  destruct (body _) as [[a'|e'] w1]; intros [= <- <-]; eauto.
Qed.

Lemma transaction_returns {A} (body : M DB A) w a w1 :
  body {| db := db w; log := log w ++ [Begin] |} = (Returns a, w1) →
  transaction body w
  = (Returns a, {| db := db w1; log := log w1 ++ [Commit] |}).
Proof. intros H. unfold transaction. by rewrite H. Qed.

Lemma transaction_ext {A} (body body' : M DB A) w :
  (∀ w0, body w0 = body' w0) → transaction body w = transaction body' w.
Proof. intros H. unfold transaction. by rewrite H. Qed.

Lemma bind_cong {A B} (m m' : M DB A) (k : A → M DB B) w :
  m w = m' w → bind m k w = bind m' k w.
Proof. intros H. unfold bind. by rewrite H. Qed.

Lemma forOf_ext {A S} (l : list A) (f g : S → A → M DB S) acc w :
  (∀ acc0 x w0, f acc0 x w0 = g acc0 x w0) →
  forOf l f acc w = forOf l g acc w.
Proof.
  intros H. revert acc w. induction l as [|x l IH]; intros acc w; [done|].
  cbn. unfold bind. rewrite H. destruct (g acc x w) as [[a|e] w1]; [apply IH | done].
Qed.

Lemma forOf_app {A S} (l l' : list A) (f : S → A → M DB S) acc w :
  forOf (l ++ l') f acc w = bind (forOf l f acc) (forOf l' f) w.
Proof.
  revert acc w. induction l as [|x l IH]; intros acc w; [done|].
  cbn. unfold bind.
  destruct (f acc x w) as [[a|e] w1]; [|done].
  rewrite IH. reflexivity.
Qed.

(** A loop whose body throws on one of its elements, whatever the
    accumulator and the state, throws. *)
Lemma forOf_throws {A S} (l : list A) (f : S → A → M DB S) x acc w :
  x ∈ l →
  (∀ acc0 w0, ∃ e w1, f acc0 x w0 = (Throws e, w1)) →
  ∃ e w1, forOf l f acc w = (Throws e, w1).
Proof.
  intros Hin Hx. revert acc w.
  induction l as [|y l IH]; intros acc w; [inversion Hin|].
  cbn. unfold bind.
  apply elem_of_cons in Hin as [<-|Hin].
  - destruct (Hx acc w) as (e & w1 & ->). eauto.
  - destruct (f acc y w) as [[a|e] w1]; [|eauto].
    by apply IH.
Qed.

Lemma extends_ret {A} (a : A) : extends (DB := DB) (ret a).
Proof. intros w. exists []. cbn. by rewrite app_nil_r. Qed.

Lemma extends_throw {A} e : extends (DB := DB) (A := A) (throw e).
Proof. intros w. exists []. cbn. by rewrite app_nil_r. Qed.

Lemma extends_call {A} c (f : Ext DB A) : extends (call c f).
Proof. intros w. exists [c]. unfold call. by destruct (f (db w)). Qed.

Lemma extends_bind {A B} (m : M DB A) (k : A → M DB B) :
  extends m → (∀ a, extends (k a)) → extends (bind m k).
Proof.
  intros Hm Hk w. unfold bind. destruct (Hm w) as [l Hl].
  destruct (m w) as [[a|e] w1]; cbn in Hl.
  - destruct (Hk a w1) as [l' Hl']. exists (l ++ l').
    by rewrite Hl', Hl, app_assoc.
  - by exists l.
Qed.

(** The calls of a transaction lie between [Begin] and [Commit] or
    [Rollback]. *)
Lemma transaction_log {A} (body : M DB A) w :
  extends body →
  ∃ inner,
    log (transaction body w).2
    = log w ++ [Begin] ++ inner
        ++ [match (transaction body w).1 with
            | Returns _ => Commit
            | Throws _ => Rollback
            end].
Proof.
  intros Hb. unfold transaction.
  destruct (Hb {| db := db w; log := log w ++ [Begin] |}) as [l Hl].
  destruct (body _) as [[a|e] w1]; cbn in *; exists l;
    by rewrite Hl, <- !app_assoc.
Qed.

Lemma extends_transaction {A} (body : M DB A) :
  extends body → extends (transaction body).
Proof.
  intros Hb w. destruct (transaction_log body w Hb) as [inner Hi]. eauto.
Qed.

Lemma extends_forOf {A S} (l : list A) (f : S → A → M DB S) acc :
  (∀ acc0 x, extends (f acc0 x)) → extends (forOf l f acc).
Proof.
  intros Hf. revert acc. induction l as [|x l IH]; intros acc.
  - apply extends_ret.
  - cbn. apply extends_bind; [apply Hf | apply IH].
Qed.

Lemma total_ret {A} (a : A) : total (DB := DB) (ret a).
Proof. intros w. by exists a, w. Qed.

Lemma total_call {A} c (f : Ext DB A) : returns f → total (call c f).
Proof.
  intros Hf w. destruct (Hf (db w)) as (a & d & H).
  eexists _, _. by apply call_returns.
Qed.

Lemma total_bind {A B} (m : M DB A) (k : A → M DB B) :
  total m → (∀ a, total (k a)) → total (bind m k).
Proof.
  intros Hm Hk w. destruct (Hm w) as (a & w1 & H).
  rewrite (bind_returns _ _ _ _ _ H). apply Hk.
Qed.

Lemma total_transaction {A} (body : M DB A) :
  total body → total (transaction body).
Proof.
  intros Hb w.
  destruct (Hb {| db := db w; log := log w ++ [Begin] |}) as (a & w1 & H).
  eexists _, _. by apply transaction_returns.
Qed.

(** A loop returns when its body returns on each of the elements. *)
Lemma total_forOf {A S} (l : list A) (f : S → A → M DB S) acc :
  Forall (fun x => ∀ acc0, total (f acc0 x)) l → total (forOf l f acc).
Proof.
  intros Hl. revert acc. induction Hl as [|x l Hx Hl IH]; intros acc.
  - apply total_ret.
  - cbn. apply total_bind; [apply Hx | apply IH].
Qed.

End MonadFacts.

(** Runs the next collaborator call of the goal in both of its outcomes. *)
Ltac run_call :=
  match goal with
  | |- context [call _ ?f ?w] =>
      let H := fresh "Hcall" in
      destruct (f (db w)) as [[?|?] ?] eqn:H;
      [ rewrite (call_returns _ _ _ _ _ H)
      | rewrite (call_throws _ _ _ _ _ H) ]
  end.

Module ItemsFacts.
Import ItemsService.

Section Facts.
Context {DB AST Column : Type}.
Variable env : Env DB AST Column.
Variable collection : string.

Lemma adminIsNotFalse_false (a : Accountability) :
  admin a = Some false → adminIsNotFalse (Some a) = false.
Proof. intros H. unfold adminIsNotFalse. rewrite H. reflexivity. Qed.

Lemma notAdmin_false (a : Accountability) :
  admin a = Some false → notAdmin (Some a) = true.
Proof. intros H. unfold notAdmin. rewrite H. reflexivity. Qed.


(** *** Authorization before mutation *)

(** [create] reaches its insert statement only after the gate, for
    every accountability the guard [admin !== true] lets through. *)
Lemma create_gated accountability data d :
  notAdmin accountability = true →
  gatedFrom false (callsOf (create env collection accountability data) d)
  = true.
Proof.
  intros Hna. unfold callsOf, create. rewrite Hna.
  unfold bind at 1. unfold transaction.
  unfold bind at 1. run_call; [|reflexivity].
  unfold bind at 1. run_call; [|reflexivity].
  unfold bind at 1. run_call; [|reflexivity].
  unfold bind at 1. run_call; [|reflexivity].
  destruct accountability as [acc|]; [|discriminate].
  unfold bind at 1. run_call; [|reflexivity].
  unfold bind at 1. run_call; reflexivity.
Qed.

(** So does the keyed branch of [update]. *)
Lemma updateSame_gated accountability data key d :
  notAdmin accountability = true →
  gatedFrom false (callsOf (updateSame env collection accountability data key) d)
  = true.
Proof.
  intros Hna. unfold callsOf, updateSame. rewrite Hna.
  unfold bind at 1. unfold bind at 1. run_call; [|reflexivity].
  run_call; [|reflexivity].
  unfold bind at 1. unfold transaction.
  unfold bind at 1. run_call; [|reflexivity].
  unfold bind at 1. run_call; [|reflexivity].
  unfold bind at 1. run_call; [|reflexivity].
  run_call; reflexivity.
Qed.

(** C1. Every mutation with a non-null accountability that is not an
    admin should pass the gate before its statement runs, and [delete]
    with [admin === false] should still call [checkAccess].  The guard of
    [delete] is [admin !== false]: with [admin === false] the gate is
    never called, and the delete statement is issued all the same. *)
Theorem delete_admin_false_skips_gate (a : Accountability) key d :
  admin a = Some false →
  let calls := callsOf (delete env collection (Some a) key) d in
  notAdmin (Some a) = true
  ∧ existsb isGate calls = false
  ∧ Delete collection (primary env collection) (toArray key) ∈ calls
  ∧ gatedFrom false calls = false.
Proof.
  intros Ha. split; [by apply notAdmin_false|].
  remember (callsOf _ d) as calls eqn:Hcalls. revert Hcalls.
  unfold callsOf, delete. rewrite (adminIsNotFalse_false _ Ha).
  unfold bind at 1, ret at 1.
  unfold bind at 1, transaction.
  unfold bind at 1. run_call; [run_call|]; intros ->; cbn;
    (split; [reflexivity | split; [|reflexivity]]);
    apply list_elem_of_In; simpl; tauto.
Qed.

(** *** The rows that [create] inserts *)

(** The insert statement of [create] receives what the payload service
    returned for the picked columns, whatever the gate returns. *)
Lemma create_inserts_transformed_rows accountability data d ps d1 rows d2 :
  Payload.processM2O (PayloadService env collection accountability)
    (toArray data) d = (Returns ps, d1) →
  Payload.processValues (PayloadService env collection accountability)
    "create" (map (fun p => pick p (columns env collection)) ps) d1
    = (Returns rows, d2) →
  (notAdmin accountability = true →
   ∃ gated d3,
     Authorization.processValues (AuthorizationService env accountability)
       "create" collection ps d2 = (Returns gated, d3)) →
  insertedRows (callsOf (create env collection accountability data) d)
  = [rows].
Proof.
  intros Hm2o Hvalues Hgate. unfold callsOf, create.
  unfold bind at 1. unfold transaction. cbn [db log].
  unfold bind at 1. rewrite (call_returns_at _ _ _ _ _ _ Hm2o).
  unfold bind at 1. rewrite (call_returns_at _ _ _ _ _ _ Hvalues).
  unfold bind at 1.
  destruct (notAdmin accountability).
  - destruct (Hgate eq_refl) as (gated & d3 & Hg).
    rewrite (call_returns_at _ _ _ _ _ _ Hg).
    unfold bind at 1. run_call; [|reflexivity].
    destruct accountability as [acc|].
    + unfold bind at 1. run_call; [|reflexivity].
      unfold bind at 1. run_call; reflexivity.
    + unfold bind at 1, ret at 1.
      unfold bind at 1. run_call; reflexivity.
  - unfold ret at 1.
    unfold bind at 1. run_call; [|reflexivity].
    destruct accountability as [acc|].
    + unfold bind at 1. run_call; [|reflexivity].
      unfold bind at 1. run_call; reflexivity.
    + unfold bind at 1, ret at 1.
      unfold bind at 1. run_call; reflexivity.
Qed.

(** *** Reading by key *)

Lemma readByKey_outcome accountability key query operation w
    ast d1 ast' d2 records d3 processed d4 :
  getASTFromQuery env collection
    (queryWithFilter query (primary env collection) (toArray key))
    accountability (Some operation) (db w) = (Returns ast, d1) →
  (if notAdmin accountability
   then Authorization.processAST (AuthorizationService env accountability)
          ast (Some operation) d1
   else (Returns ast, d1)) = (Returns ast', d2) →
  runAST env ast' d2 = (Returns records, d3) →
  Payload.processValues (PayloadService env collection None) "read"
    records d3 = (Returns processed, d4) →
  (readByKey env collection accountability key query operation w).1
  = Returns (if isArray key then FoundMany processed
             else FoundOne (head processed)).
Proof.
  intros Hast Hgate Hrun Hvalues. unfold readByKey. destruct w as [d l].
  cbn [db] in Hast.
  unfold bind at 1. rewrite (call_returns_at _ _ _ _ _ _ Hast).
  unfold bind at 1.
  destruct (notAdmin accountability).
  - rewrite (call_returns_at _ _ _ _ _ _ Hgate).
    unfold bind at 1. rewrite (call_returns_at _ _ _ _ _ _ Hrun).
    unfold bind at 1. rewrite (call_returns_at _ _ _ _ _ _ Hvalues).
    reflexivity.
  - injection Hgate as <- <-. unfold ret at 1.
    unfold bind at 1. rewrite (call_returns_at _ _ _ _ _ _ Hrun).
    unfold bind at 1. rewrite (call_returns_at _ _ _ _ _ _ Hvalues).
    reflexivity.
Qed.

(** C6. [readByKey] with a single key whose row is absent from the
    query result returns [undefined], not an error; with an array of
    keys it returns the array of the items found.  Whenever the four
    collaborators of the read pipeline return, with [processed] the
    records after read processing: a single key yields the first record
    or [undefined] when there is none, an array of keys yields
    [processed] itself. *)
Theorem readByKey_absent_is_undefined accountability key query operation w
    ast d1 ast' d2 records d3 processed d4 :
  getASTFromQuery env collection
    (queryWithFilter query (primary env collection) (toArray key))
    accountability (Some operation) (db w) = (Returns ast, d1) →
  (if notAdmin accountability
   then Authorization.processAST (AuthorizationService env accountability)
          ast (Some operation) d1
   else (Returns ast, d1)) = (Returns ast', d2) →
  runAST env ast' d2 = (Returns records, d3) →
  Payload.processValues (PayloadService env collection None) "read"
    records d3 = (Returns processed, d4) →
  let outcome :=
    (readByKey env collection accountability key query operation w).1 in
  (∀ k, key = One k → processed = [] → outcome = Returns (FoundOne None))
  ∧ (∀ k, key = One k → outcome = Returns (FoundOne (head processed)))
  ∧ (∀ ks, key = Many ks → outcome = Returns (FoundMany processed)).
Proof.
  intros Hast Hgate Hrun Hvalues outcome.
  pose proof (readByKey_outcome _ _ _ _ _ _ _ _ _ _ _ _ _
                Hast Hgate Hrun Hvalues) as Hout.
  fold outcome in Hout.
  split; [|split].
  - intros k -> ->. exact Hout.
  - intros k ->. exact Hout.
  - intros ks ->. exact Hout.
Qed.

(** The filter of the executed query. *)
Lemma filterWithKeys_key f primaryKeyField keys :
  filterWithKeys f primaryKeyField keys !! primaryKeyField
  = Some {["_in" := OList keys]}.
Proof. unfold filterWithKeys. apply lookup_insert_eq. Qed.

Lemma filterWithKeys_other f primaryKeyField keys field :
  field ≠ primaryKeyField →
  filterWithKeys f primaryKeyField keys !! field = default ∅ f !! field.
Proof. intros H. unfold filterWithKeys. by rewrite lookup_insert_ne. Qed.

Lemma readByKey_executedQueries accountability key query operation d :
  executedQueries
    (callsOf (readByKey env collection accountability key query operation) d)
  = [queryWithFilter query (primary env collection) (toArray key)].
Proof.
  unfold callsOf, readByKey.
  unfold bind at 1. run_call; [|reflexivity].
  unfold bind at 1.
  destruct (notAdmin accountability).
  - run_call; [|reflexivity].
    unfold bind at 1. run_call; [|reflexivity].
    unfold bind at 1. run_call; reflexivity.
  - unfold ret at 1.
    unfold bind at 1. run_call; [|reflexivity].
    unfold bind at 1. run_call; reflexivity.
Qed.

(** C7, amended. The one query [readByKey] executes is the caller's
    query with the primary-key entry of its filter set to
    [{ _in: keys }]: every condition of the caller's filter on another
    field is kept unchanged next to it, the other properties of the
    query are kept, and a condition the caller placed on the
    primary-key field is replaced. *)
Theorem readByKey_filter_keeps_other_fields accountability key query
    operation d :
  ∃ executed,
    executedQueries
      (callsOf (readByKey env collection accountability key query operation) d)
    = [executed]
    ∧ default ∅ (filter executed) !! primary env collection
      = Some {["_in" := OList (toArray key)]}
    ∧ (∀ field, field ≠ primary env collection →
         default ∅ (filter executed) !! field
         = default ∅ (filter query) !! field)
    ∧ limit executed = limit query
    ∧ rest executed = rest query.
Proof.
  eexists. split; [apply readByKey_executedQueries|].
  cbn. split; [apply filterWithKeys_key|].
  split; [|split; reflexivity].
  intros field Hne. by apply filterWithKeys_other.
Qed.

(** *** Singletons *)

Lemma defaultsOf_snoc (columns : list Column) column :
  defaultsOf (columnName env) (getDefaultValue env) (columns ++ [column])
  = <[columnName env column := getDefaultValue env column]>
      (defaultsOf (columnName env) (getDefaultValue env) columns).
Proof. unfold defaultsOf. by rewrite foldl_app. Qed.

Lemma defaultsOf_dom (columns : list Column) k :
  is_Some (defaultsOf (columnName env) (getDefaultValue env) columns !! k)
  ↔ k ∈ map (columnName env) columns.
Proof.
  induction columns as [|column columns IH] using rev_ind.
  - cbn. rewrite lookup_empty. split; [intros [? ?]; discriminate|].
    intros H. inversion H.
  - rewrite defaultsOf_snoc, map_app, elem_of_app. cbn.
    destruct (decide (columnName env column = k)) as [->|Hne].
    + rewrite lookup_insert_eq. split; [|eauto].
      intros _. right. apply list_elem_of_In. simpl. tauto.
    + rewrite lookup_insert_ne by done. rewrite IH.
      split; [tauto|]. intros [H|H]; [done|].
      apply list_elem_of_In in H. simpl in H. tauto.
Qed.

Lemma defaultsOf_lookup (columns : list Column) column :
  NoDup (map (columnName env) columns) →
  column ∈ columns →
  defaultsOf (columnName env) (getDefaultValue env) columns
    !! columnName env column
  = Some (getDefaultValue env column).
Proof.
  induction columns as [|c columns IH] using rev_ind.
  - intros _ H. inversion H.
  - rewrite map_app. cbn. intros Hnd Hin.
    apply NoDup_app in Hnd as (Hnd & Hfresh & _).
    rewrite defaultsOf_snoc.
    apply elem_of_app in Hin as [Hin|Hin].
    + rewrite lookup_insert_ne; [by apply IH|].
      intros Heq. apply (Hfresh (columnName env column)).
      * apply list_elem_of_fmap. eauto.
      * rewrite <- Heq. apply list_elem_of_In. simpl. tauto.
    + apply list_elem_of_In in Hin. simpl in Hin.
      destruct Hin as [->|[]]. apply lookup_insert_eq.
Qed.

Lemma readSingleton_executedQueries accountability query d :
  executedQueries
    (callsOf (readSingleton env collection accountability query) d)
  = [{| filter := filter query; limit := Some 1; rest := rest query |}].
Proof.
  unfold callsOf, readSingleton, readByQuery.
  unfold bind at 1. unfold bind at 1. run_call; [|reflexivity].
  unfold bind at 1.
  destruct (adminIsFalse accountability).
  - run_call; [|reflexivity].
    unfold bind at 1. run_call; [|reflexivity].
    unfold bind at 1. run_call; [|reflexivity].
    unfold ret at 1. destruct (head _); reflexivity.
  - unfold ret at 1.
    unfold bind at 1. run_call; [|reflexivity].
    unfold bind at 1. run_call; [|reflexivity].
    unfold ret at 1. destruct (head _); reflexivity.
Qed.

(** C8. [readSingleton] always forces [limit = 1] on the query, and
    when the query yields no row it returns the item that maps each
    column name of [columnInfo] to that column's default value; whenever
    the read returns, [readSingleton] returns an item, the first record
    if there is one. *)
Theorem readSingleton_defaults accountability query w :
  let limited :=
    {| filter := filter query; limit := Some 1; rest := rest query |} in
  let defaults :=
    defaultsOf (columnName env) (getDefaultValue env)
      (columnInfo env collection) in
  executedQueries
    (callsOf (readSingleton env collection accountability query) (db w))
  = [limited]
  ∧ (∀ w', readByQuery env collection accountability limited w
           = (Returns [], w') →
       readSingleton env collection accountability query w
       = (Returns defaults, w'))
  ∧ (∀ record records w',
       readByQuery env collection accountability limited w
       = (Returns (record :: records), w') →
       readSingleton env collection accountability query w
       = (Returns record, w'))
  ∧ (∀ records w',
       readByQuery env collection accountability limited w
       = (Returns records, w') →
       ∃ item, readSingleton env collection accountability query w
               = (Returns item, w'))
  ∧ (∀ k, is_Some (defaults !! k)
          ↔ k ∈ map (columnName env) (columnInfo env collection))
  ∧ (NoDup (map (columnName env) (columnInfo env collection)) →
     ∀ column, column ∈ columnInfo env collection →
       defaults !! columnName env column
       = Some (getDefaultValue env column)).
Proof.
  intros limited defaults.
  split; [apply readSingleton_executedQueries|].
  split; [|split; [|split; [|split]]].
  - intros w' H. unfold readSingleton. fold limited.
    by rewrite (bind_returns _ _ _ _ _ H).
  - intros record records w' H. unfold readSingleton. fold limited.
    by rewrite (bind_returns _ _ _ _ _ H).
  - intros records w' H. unfold readSingleton. fold limited.
    rewrite (bind_returns _ _ _ _ _ H).
    destruct records; cbn; eauto.
  - apply defaultsOf_dom.
  - intros Hnd column Hin. by apply defaultsOf_lookup.
Qed.

(** *** [update] *)


(** *** [update] *)

(** The recursive call of the batch loop passes a key that is truthy,
    so it takes the keyed branch. *)
Lemma updateRec_keyed accountability budget data key :
  truthy key = true →
  updateRec env collection accountability budget (UpdateKey data key)
  = updateSame env collection accountability data (One key).
Proof. intros H. destruct budget; cbn; rewrite H; reflexivity. Qed.

Lemma updateRec_keys accountability budget data keys :
  updateRec env collection accountability budget (UpdateKeys data keys)
  = updateSame env collection accountability data (Many keys).
Proof. destruct budget; reflexivity. Qed.

Lemma updateRec_unkeyed accountability budget data key w :
  truthy key = false →
  updateRec env collection accountability budget (UpdateKey data key) w
  = (Throws (TypeError "data is not iterable"),
     {| db := db w; log := log w ++ [Begin; Rollback] |}).
Proof.
  intros H. destruct budget; cbn; rewrite H; cbn;
    by rewrite <- app_assoc.
Qed.

Lemma updateRec_batch accountability budget data w :
  updateRec env collection accountability (S budget) (UpdateBatch data) w
  = bind (transaction
            (forOf data (batchStep env collection accountability) []))
         (fun keys => ret (Many keys)) w.
Proof.
  cbn [updateRec keyed]. apply bind_cong.
  apply transaction_ext. intros w0. apply forOf_ext.
  intros keys single w1. unfold batchStep.
  destruct (truthy (get single (primary env collection))) eqn:Hkey; cbn;
    [|reflexivity].
  rewrite updateRec_keyed by exact Hkey. reflexivity.
Qed.

(** A budget of one recursive call is never used up: a larger budget
    gives the same result. *)
Lemma updateRec_budget accountability budget args w :
  updateRec env collection accountability (S budget) args w
  = update env collection accountability args w.
Proof.
  unfold update. destruct args as [data keys|data key|data].
  - by rewrite !updateRec_keys.
  - destruct (truthy key) eqn:Hkey.
    + by rewrite !updateRec_keyed.
    + by rewrite !updateRec_unkeyed.
  - by rewrite !updateRec_batch.
Qed.

Lemma update_batch accountability data w :
  update env collection accountability (UpdateBatch data) w
  = bind (transaction
            (forOf data (batchStep env collection accountability) []))
         (fun keys => ret (Many keys)) w.
Proof. apply updateRec_batch. Qed.

(** The keys the loop has collected are those of the elements passed. *)
Lemma batch_keys accountability data keys w keys' w' :
  forOf data (batchStep env collection accountability) keys w
  = (Returns keys', w') →
  keys' = keys ++ map (fun single => get single (primary env collection)) data.
Proof.
  revert keys w. induction data as [|single data IH]; intros keys w.
  - cbn. intros [= <- <-]. by rewrite app_nil_r.
  - cbn [forOf map]. intros H.
    apply bind_inv_returns in H as (keys1 & w1 & Hstep & Hrest).
    apply IH in Hrest. subst keys'.
    unfold batchStep in Hstep.
    destruct (truthy _); cbn in Hstep; [|discriminate].
    apply bind_inv_returns in Hstep as (r & w2 & _ & [= <- <-]).
    by rewrite <- app_assoc.
Qed.

Lemma updateSame_returns accountability data key w r w' :
  updateSame env collection accountability data key w = (Returns r, w') →
  r = key.
Proof.
  unfold updateSame. intros H.
  apply bind_inv_returns in H as (p & w1 & _ & H).
  apply bind_inv_returns in H as (u & w2 & _ & H).
  by injection H as <- <-.
Qed.

Lemma extends_updateSame accountability data key :
  extends (updateSame env collection accountability data key).
Proof.
  unfold updateSame.
  apply extends_bind.
  { destruct (notAdmin accountability); [|apply extends_ret].
    apply extends_bind; [apply extends_call|]. intros _. apply extends_call. }
  intros payload. apply extends_bind; [|intros _; apply extends_ret].
  apply extends_transaction.
  apply extends_bind; [apply extends_call|]. intros p1.
  apply extends_bind; [apply extends_call|]. intros p2.
  apply extends_bind; [apply extends_call|]. intros _. apply extends_call.
Qed.

Lemma extends_batchStep accountability keys single :
  extends (batchStep env collection accountability keys single).
Proof.
  unfold batchStep. destruct (negb _); [apply extends_throw|].
  apply extends_bind; [apply extends_updateSame|].
  intros _. apply extends_ret.
Qed.

(** C4. In a batch update every element has to carry a value under the
    primary-key field, and an element without one raises
    [InvalidPayloadException]; the per-element updates run inside one
    outer transaction, so an error on any element restores the storage
    of the start, whatever the earlier elements wrote. *)
Theorem update_batch_atomic accountability data w :
  let primaryKeyField := primary env collection in
  let run := update env collection accountability (UpdateBatch data) w in
  (∀ e, run.1 = Throws e → db run.2 = db w)
  ∧ ((∃ single, single ∈ data ∧ truthy (get single primaryKeyField) = false) →
     ∃ e, run.1 = Throws e)
  ∧ (∀ pre single post keys w1,
       data = pre ++ single :: post →
       update env collection accountability (UpdateBatch pre) w
       = (Returns keys, w1) →
       truthy (get single primaryKeyField) = false →
       run.1 = Throws (InvalidPayloadException
                         "Primary key is missing in update payload."))
  ∧ (∃ inner,
       log run.2
       = log w ++ [Begin] ++ inner
           ++ [match run.1 with
               | Returns _ => Commit
               | Throws _ => Rollback
               end]).
Proof.
  intros primaryKeyField run.
  assert (Hrun : run = bind (transaction
            (forOf data (batchStep env collection accountability) []))
         (fun keys => ret (Many keys)) w) by apply update_batch.
  pose proof (extends_forOf data (batchStep env collection accountability) []
                (extends_batchStep accountability)) as Hext.
  split; [|split; [|split]].
  - intros e He. rewrite Hrun in He |- *. unfold bind in *.
    destruct (transaction _ w) as [[keys|e'] w1] eqn:Ht; [discriminate|].
    cbn. by apply transaction_throws_db in Ht.
  - intros (single & Hin & Hkey). rewrite Hrun. unfold bind, transaction.
    destruct (forOf_throws data (batchStep env collection accountability)
                single [] {| db := db w; log := log w ++ [Begin] |} Hin)
      as (e & w1 & ->); [|eauto].
    intros acc0 w0. unfold batchStep. fold primaryKeyField.
    rewrite Hkey. cbn. eauto.
  - intros pre single post keys w1 -> Hpre Hkey.
    rewrite Hrun. rewrite update_batch in Hpre.
    apply bind_inv_returns in Hpre as (keys0 & w2 & Hpre & _).
    apply transaction_inv_returns in Hpre as (w3 & Hpre & _).
    unfold bind, transaction. rewrite forOf_app.
    rewrite (bind_returns _ _ _ _ _ Hpre). cbn [forOf].
    unfold bind, batchStep. fold primaryKeyField. rewrite Hkey. reflexivity.
  - rewrite Hrun. unfold bind.
    destruct (transaction_log _ w Hext) as [inner Hinner].
    destruct (transaction _ w) as [[keys|e] w1]; cbn in *; eauto.
Qed.

(** *** The write methods return when their collaborators do *)


Lemma updateSame_total accountability data key :
  quiet env collection accountability →
  total (updateSame env collection accountability data key).
Proof.
  intros (_ & Hm2o & _ & Hvalues & _ & Ho2m & _ & Hgate & Haccess & _ & _
          & Hupd & _).
  unfold updateSame.
  apply total_bind.
  { destruct (notAdmin accountability); [|apply total_ret].
    apply total_bind; [by apply total_call|]. intros _. by apply total_call. }
  intros payload.
  apply total_bind; [|intros _; apply total_ret].
  apply total_transaction.
  apply total_bind; [by apply total_call|]. intros p1.
  apply total_bind; [by apply total_call|]. intros p2.
  apply total_bind; [by apply total_call|]. intros _. by apply total_call.
Qed.


Lemma update_total accountability args :
  quiet env collection accountability →
  wellKeyed (primary env collection) args →
  total (update env collection accountability args).
Proof.
  intros Hq Hargs w. unfold update.
  destruct args as [data keys|data key|data]; cbn in Hargs.
  - rewrite updateRec_keys. by apply updateSame_total.
  - rewrite updateRec_keyed by done. by apply updateSame_total.
  - rewrite updateRec_batch. revert w.
    apply total_bind; [|intros keys; apply total_ret].
    apply total_transaction, total_forOf.
    eapply Forall_impl; [exact Hargs|].
    intros single Hkey keys. unfold batchStep. rewrite Hkey. cbn [negb].
    apply total_bind; [by apply updateSame_total|].
    intros _. apply total_ret.
Qed.

(** *** Shapes of the results *)



Lemma update_returns accountability args w r w' :
  update env collection accountability args w = (Returns r, w') →
  r = match args with
      | UpdateKey _ key => One key
      | UpdateKeys _ keys => Many keys
      | UpdateBatch data =>
          Many (map (fun single => get single (primary env collection)) data)
      end.
Proof.
  unfold update. destruct args as [data keys|data key|data].
  - rewrite updateRec_keys. apply updateSame_returns.
  - destruct (truthy key) eqn:Hkey.
    + rewrite updateRec_keyed by done. apply updateSame_returns.
    + rewrite updateRec_unkeyed by done. discriminate.
  - rewrite updateRec_batch. intros H.
    apply bind_inv_returns in H as (keys & w1 & H & [= <- <-]).
    apply transaction_inv_returns in H as (w2 & H & _).
    apply batch_keys in H. by subst keys.
Qed.


(** *** [upsertSingleton] *)

(** C10. When the probe finds a row, [upsertSingleton] keys the update
    on the row's [id] property, whatever the primary-key field is
    called; the probe selects the primary-key column only, so for a
    primary-key field that is not named [id] the update is invoked with
    an undefined key (and then throws, the payload not being an
    array). *)
Theorem upsertSingleton_keys_on_id accountability data w record d' :
  let primaryKeyField := primary env collection in
  let w1 := {| db := d';
               log := log w ++ [SelectFirst primaryKeyField collection] |} in
  Knex.selectFirst (knex env) primaryKeyField collection (db w)
  = (Returns (Some record), d') →
  upsertSingleton env collection accountability data w
  = update env collection accountability
      (UpdateKey data (get record "id")) w1
  ∧ (primaryKeyField ≠ "id" →
     (∀ k, k ≠ primaryKeyField → record !! k = None) →
     get record "id" = VUndefined
     ∧ upsertSingleton env collection accountability data w
       = update env collection accountability (UpdateKey data VUndefined) w1
     ∧ upsertSingleton env collection accountability data w
       = (Throws (TypeError "data is not iterable"),
          {| db := d'; log := log w1 ++ [Begin; Rollback] |})).
Proof.
  intros primaryKeyField w1 Hprobe.
  assert (Hup : upsertSingleton env collection accountability data w
                = update env collection accountability
                    (UpdateKey data (get record "id")) w1).
  { unfold upsertSingleton. fold primaryKeyField.
    by rewrite (bind_returns _ _ _ _ _ (call_returns _ _ _ _ _ Hprobe)). }
  split; [exact Hup|].
  intros Hne Hcols.
  assert (Hid : get record "id" = VUndefined).
  { unfold get. rewrite Hcols; [reflexivity|].
    intros Heq. apply Hne. symmetry. exact Heq. }
  split; [exact Hid|]. rewrite Hup, Hid. split; [reflexivity|].
  unfold update. by rewrite updateRec_unkeyed.
Qed.
End Facts.
End ItemsFacts.

(** ** Strings *)

Module StringFacts.
Import JsString.

Lemma append_cons c s t : String c s +:+ t = String c (s +:+ t).
Proof. reflexivity. Qed.

Lemma append_nil_r s : s +:+ "" = s.
Proof. induction s as [|c s IH]; [done|]. by rewrite append_cons, IH. Qed.

Lemma append_assoc s t u : (s +:+ t) +:+ u = s +:+ (t +:+ u).
Proof. induction s as [|c s IH]; [done|]. by rewrite !append_cons, IH. Qed.

Lemma prefix_nil s : String.prefix "" s = true.
Proof. by destruct s. Qed.

Lemma prefix_cons a s b t :
  String.prefix (String a s) (String b t) = true ↔ a = b ∧ String.prefix s t = true.
Proof.
  cbn. destruct (ascii_dec a b) as [->|Hne]; [tauto|].
  split; [discriminate | intros [? _]; done].
Qed.

Lemma prefix_refl s : String.prefix s s = true.
Proof. induction s as [|c s IH]; [done|]. by apply prefix_cons. Qed.

Lemma prefix_trans s t u :
  String.prefix s t = true → String.prefix t u = true → String.prefix s u = true.
Proof.
  revert t u. induction s as [|a s IH]; intros t u;
    [intros _ _; apply prefix_nil|].
  destruct t as [|b t]; [discriminate|].
  destruct u as [|c u]; [discriminate|].
  rewrite !prefix_cons. intros [-> Hst] [-> Htu]. eauto.
Qed.

Lemma prefix_app s t : String.prefix s (s +:+ t) = true.
Proof.
  induction s as [|a s IH]; [apply prefix_nil|].
  rewrite append_cons. by apply prefix_cons.
Qed.

Lemma prefix_length s t :
  String.prefix s t = true → (String.length s ≤ String.length t)%nat.
Proof.
  revert t. induction s as [|a s IH]; intros t; [cbn; lia|].
  destruct t as [|b t]; [discriminate|].
  rewrite prefix_cons. intros [_ H]. apply IH in H. cbn. lia.
Qed.

Lemma prefix_drop s t :
  String.prefix s t = true → t = s +:+ drop (String.length s) t.
Proof.
  revert t. induction s as [|a s IH]; intros t; [done|].
  destruct t as [|b t]; [discriminate|].
  rewrite prefix_cons. intros [-> H]. cbn [String.length drop].
  rewrite append_cons. f_equal. by apply IH.
Qed.

Lemma eqb_refl s : String.eqb s s = true.
Proof. by apply String.eqb_eq. Qed.

Lemma length_append s t :
  String.length (s +:+ t) = (String.length s + String.length t)%nat.
Proof. induction s as [|a s IH]; [done|]. rewrite append_cons. cbn. lia. Qed.

(** *** [split] *)

Lemma consHead_nonempty c l : consHead c l ≠ [].
Proof. by destruct l. Qed.

Lemma splitFrom_nonempty sep k s : splitFrom sep k s ≠ [].
Proof.
  revert k. induction s as [|c s IH]; intros k; [done|].
  cbn [splitFrom]. destruct k; [|apply IH].
  destruct (String.prefix sep _); [done | apply consHead_nonempty].
Qed.

Lemma join_cons p l : join (p :: l) = p +:+ join l.
Proof. reflexivity. Qed.

Lemma join_app l l' : join (l ++ l') = join l +:+ join l'.
Proof.
  induction l as [|p l IH]; [done|].
  cbn [app]. by rewrite !join_cons, IH, append_assoc.
Qed.

(** *** Lists with a distinguished last element *)

Lemma initLast_cons2 {A} (P Q : A → Prop) x y l :
  initLast P Q (x :: y :: l) ↔ P x ∧ initLast P Q (y :: l).
Proof. reflexivity. Qed.

Lemma initLast_impl {A} (P Q P' Q' : A → Prop) l :
  (∀ x, P x → P' x) → (∀ x, Q x → Q' x) →
  initLast P Q l → initLast P' Q' l.
Proof.
  intros HP HQ. induction l as [|x [|y l] IH]; cbn; [done|auto|].
  intros [Hx Hl]. split; [auto | by apply IH].
Qed.

Lemma initLast_Forall {A} (P : A → Prop) l :
  initLast P P l → Forall P l.
Proof.
  induction l as [|x [|y l] IH]; cbn; [constructor|by repeat constructor|].
  intros [Hx Hl]. constructor; [done | by apply IH].
Qed.

Lemma Forall_initLast {A} (P : A → Prop) l :
  Forall P l → initLast P P l.
Proof.
  induction l as [|x [|y l] IH]; cbn; [done|by inversion 1|].
  intros H. apply Forall_cons in H as [Hx Hl]. split; [done | by apply IH].
Qed.

Lemma initLast_removelast {A} (P : A → Prop) l :
  initLast P (fun _ => True) l → Forall P (removelast l).
Proof.
  induction l as [|x [|y l] IH]; cbn [removelast]; [constructor..|].
  rewrite initLast_cons2. intros [Hx Hl]. constructor; [done | by apply IH].
Qed.

Lemma initLast_app {A} (P Q : A → Prop) l l' :
  Forall P l → l' ≠ [] → initLast P Q l' → initLast P Q (l ++ l').
Proof.
  intros Hl Hne Hl'. induction Hl as [|x l Hx Hl IH]; [done|].
  cbn [app]. destruct (l ++ l') as [|y m] eqn:E.
  - by apply app_eq_nil in E as [_ ?].
  - by apply initLast_cons2.
Qed.

Lemma initLast_flat_map {A B} (P1 Q1 : A → Prop) (P Q : B → Prop)
    (f : A → list B) l :
  (∀ x, f x ≠ []) →
  (∀ x, P1 x → Forall P (f x)) →
  (∀ x, Q1 x → initLast P Q (f x)) →
  initLast P1 Q1 l → initLast P Q (flat_map f l).
Proof.
  intros Hne HP HQ. induction l as [|x [|y l] IH]; [done|..].
  - cbn. intros Hx. rewrite app_nil_r. by apply HQ.
  - rewrite initLast_cons2. intros [Hx Hl].
    change (flat_map f (x :: y :: l)) with (f x ++ flat_map f (y :: l)).
    apply initLast_app; [by apply HP | | by apply IH].
    cbn. intros E. apply app_eq_nil in E as [E _]. by apply (Hne y).
Qed.

(** *** [addBack] *)

Import JsonHelperOracle_12.

Lemma addBack_cons2 tok p q l :
  addBack tok (p :: q :: l) = (p +:+ tok) :: addBack tok (q :: l).
Proof. reflexivity. Qed.

Lemma addBack_nonempty tok l : l ≠ [] → addBack tok l ≠ [].
Proof. by destruct l as [|p [|q l]]. Qed.

Lemma addBack_initLast (P Q P' : string → Prop) tok l :
  (∀ y, P y → P' (y +:+ tok)) →
  initLast P Q l → initLast P' Q (addBack tok l).
Proof.
  intros HP. induction l as [|p [|q l] IH]; [done..|].
  rewrite addBack_cons2, initLast_cons2.
  intros [Hp Hl]. specialize (IH Hl).
  destruct (addBack tok (q :: l)) as [|z m] eqn:E;
    [by apply addBack_nonempty in E|].
  apply initLast_cons2. auto.
Qed.

Lemma join_addBack_consHead tok c l :
  l ≠ [] →
  join (addBack tok (consHead c l)) = String c (join (addBack tok l)).
Proof. by destruct l as [|h [|h2 t]]. Qed.

(** *** [split] followed by [addBack] gives the string back *)

Section Split.
Variable sep : string.
Hypothesis sep_nonempty : sep ≠ "".

Lemma join_addBack_splitFrom s k :
  join (addBack sep (splitFrom sep k s)) = drop k s.
Proof.
  revert k. induction s as [|c s IH]; intros k.
  - by destruct k.
  - cbn [splitFrom]. destruct k as [|k]; [|apply IH].
    cbn [drop]. destruct (String.prefix sep (String c s)) eqn:Hpre.
    + pose proof (IH (String.length sep - 1)%nat) as IHk.
      destruct (splitFrom sep _ s) as [|h t] eqn:E;
        [by apply splitFrom_nonempty in E|].
      rewrite addBack_cons2, join_cons, IHk.
      etrans; [|symmetry; apply (prefix_drop _ _ Hpre)].
      destruct sep as [|a sep']; [done|].
      cbn [String.length drop].
      replace (S (String.length sep') - 1)%nat with (String.length sep')
        by lia.
      reflexivity.
    + rewrite join_addBack_consHead by apply splitFrom_nonempty.
      by rewrite IH.
Qed.

Lemma join_addBack_split s : join (addBack sep (split sep s)) = s.
Proof. apply join_addBack_splitFrom. Qed.

(** The first piece is a prefix of the string; when more pieces follow,
    so is the first piece with the separator. *)
Lemma split_head_only s h : split sep s = [h] → h = s.
Proof.
  intros E. pose proof (join_addBack_split s) as H. rewrite E in H.
  cbn in H. by rewrite append_nil_r in H.
Qed.

Lemma split_head_more s h h2 t :
  split sep s = h :: h2 :: t →
  String.prefix h s = true
  ∧ (String.length h < String.length s)%nat.
Proof.
  intros E. pose proof (join_addBack_split s) as H. rewrite E in H.
  rewrite addBack_cons2, join_cons, append_assoc in H.
  split.
  - rewrite <- H. apply prefix_app.
  - rewrite <- H, !length_append.
    destruct sep; [done|]. cbn. lia.
Qed.

Lemma split_head_prefix s h t :
  split sep s = h :: t → String.prefix h s = true.
Proof.
  destruct t as [|h2 t]; intros E.
  - apply split_head_only in E as ->. apply prefix_refl.
  - by apply split_head_more in E as [? _].
Qed.

Lemma occurs_nil sub : sub ≠ "" → occurs sub "" = false.
Proof. by destruct sub. Qed.

Lemma occurs_cons sub c s :
  occurs sub (String c s) = String.prefix sub (String c s) || occurs sub s.
Proof. reflexivity. Qed.

Lemma occursInside_cons sub c s :
  occursInside sub (String c s)
  = (String.prefix sub (String c s) && negb (String.eqb (String c s) sub))
    || occursInside sub s.
Proof. reflexivity. Qed.

(** No piece of a split contains the separator. *)
Lemma splitFrom_no_sep s k :
  Forall (fun p => occurs sep p = false) (splitFrom sep k s).
Proof.
  revert k. induction s as [|c s IH]; intros k.
  - cbn. constructor; [by apply occurs_nil | constructor].
  - cbn [splitFrom]. destruct k as [|k]; [|apply IH].
    destruct (String.prefix sep (String c s)) eqn:Hpre.
    + constructor; [by apply occurs_nil | apply IH].
    + pose proof (IH 0%nat) as IH0.
      pose proof (split_head_prefix s) as Hhead. unfold split in Hhead.
      destruct (splitFrom sep 0 s) as [|h t];
        [constructor; [|constructor]|].
      * rewrite occurs_cons, occurs_nil by done.
        destruct (String.prefix sep (String c "")) eqn:E; [|done].
        rewrite <- Hpre. symmetry.
        apply (prefix_trans _ _ _ E). apply prefix_cons.
        split; [done | apply prefix_nil].
      * apply Forall_cons in IH0 as [Hh Ht]. cbn [consHead].
        constructor; [|done].
        rewrite occurs_cons, Hh, orb_false_r.
        destruct (String.prefix sep (String c h)) eqn:E; [|done].
        rewrite <- Hpre. symmetry.
        apply (prefix_trans _ _ _ E). apply prefix_cons.
        split; [done | by apply (Hhead h t)].
Qed.

(** A token that occurs in the string only as its suffix occurs in no
    piece but the last, and there only as its suffix. *)
Lemma splitFrom_inside tok s k :
  tok ≠ "" →
  occursInside tok s = false →
  initLast (fun y => occurs tok y = false)
           (fun y => occursInside tok y = false)
           (splitFrom sep k s).
Proof.
  intros Htok. revert k. induction s as [|c s IH]; intros k Hs; [done|].
  rewrite occursInside_cons in Hs.
  apply orb_false_iff in Hs as [Hhere Hs].
  cbn [splitFrom]. destruct k as [|k]; [|by apply IH].
  destruct (String.prefix sep (String c s)) eqn:Hpre.
  - specialize (IH (String.length sep - 1)%nat Hs).
    destruct (splitFrom sep _ s) as [|h t] eqn:E;
      [by apply splitFrom_nonempty in E|].
    apply initLast_cons2. split; [by apply occurs_nil | done].
  - specialize (IH 0%nat Hs).
    pose proof (split_head_only s) as Honly.
    pose proof (split_head_more s) as Hmore. unfold split in Honly, Hmore.
    destruct (splitFrom sep 0 s) as [|h [|h2 t]] eqn:E;
      [by apply splitFrom_nonempty in E|..]; cbn [consHead].
    + cbn [initLast]. rewrite (Honly h eq_refl), occursInside_cons.
      by rewrite Hhere, Hs.
    + apply initLast_cons2 in IH as [Hh Ht].
      apply initLast_cons2. split; [|done].
      rewrite occurs_cons, Hh, orb_false_r.
      destruct (String.prefix tok (String c h)) eqn:Eh; [|done].
      destruct (Hmore h h2 t eq_refl) as [Hhs Hlen].
      assert (Hcs : String.prefix tok (String c s) = true).
      { apply (prefix_trans _ _ _ Eh). by apply prefix_cons. }
      rewrite Hcs, andb_true_l in Hhere.
      apply negb_false_iff, String.eqb_eq in Hhere.
      apply prefix_length in Eh. rewrite <- Hhere in Eh. cbn in Eh. lia.
Qed.

End Split.


Lemma initLast_conj {A} (P Q P' Q' : A → Prop) l :
  initLast P Q l → initLast P' Q' l →
  initLast (fun x => P x ∧ P' x) (fun x => Q x ∧ Q' x) l.
Proof.
  induction l as [|x [|y l] IH]; [done | by split |].
  rewrite !initLast_cons2. intros [Hx Hl] [Hx' Hl']. auto.
Qed.

Lemma initLast_trivial {A} (l : list A) :
  initLast (fun _ => True) (fun _ => True) l.
Proof. induction l as [|x [|y l] IH]; [done..|]. by apply initLast_cons2. Qed.

(** *** [endsWith] and occurrences *)

Lemma endsWith_cons p c s :
  endsWith p s = true → endsWith p (String c s) = true.
Proof. intros H. cbn [endsWith]. rewrite H. by destruct (String.eqb _ _). Qed.

Lemma endsWith_cons_inv p c s :
  endsWith p (String c s) = true → String c s = p ∨ endsWith p s = true.
Proof.
  cbn [endsWith]. destruct (String.eqb (String c s) p) eqn:E; [|auto].
  left. by apply String.eqb_eq.
Qed.

Lemma endsWith_refl p : endsWith p p = true.
Proof. destruct p; cbn [endsWith]; by rewrite eqb_refl. Qed.

Lemma endsWith_app p s : endsWith p (s +:+ p) = true.
Proof.
  induction s as [|c s IH]; [apply endsWith_refl|].
  rewrite append_cons. by apply endsWith_cons.
Qed.

(** [endsWith] finds exactly the suffixes. *)
Lemma endsWith_spec p s : endsWith p s = true ↔ ∃ u, s = u +:+ p.
Proof.
  split.
  - induction s as [|c s IH].
    + cbn. destruct p; [by exists "" | discriminate].
    + intros [<-|H]%endsWith_cons_inv; [by exists ""|].
      destruct (IH H) as [u ->]. by exists (String c u).
  - intros [u ->]. apply endsWith_app.
Qed.

Lemma occurs_false_inside sub s :
  occurs sub s = false → occursInside sub s = false.
Proof.
  induction s as [|c s IH].
  - cbn. by intros ->%orb_false_iff%proj1.
  - rewrite occurs_cons, occursInside_cons.
    intros [-> H]%orb_false_iff. by rewrite IH.
Qed.

(** [occurs] finds exactly the substrings. *)
Lemma occurs_spec sub s : occurs sub s = true ↔ ∃ u v, s = u +:+ sub +:+ v.
Proof.
  split.
  - induction s as [|c s IH].
    + destruct sub; [by exists "", "" | discriminate].
    + rewrite occurs_cons. intros [H|H]%orb_true_iff.
      * exists "", (drop (String.length sub) (String c s)).
        by apply prefix_drop.
      * destruct (IH H) as (u & v & ->). by exists (String c u), v.
  - intros (u & v & ->). induction u as [|c u IH].
    + change ("" +:+ sub +:+ v) with (sub +:+ v).
      destruct (sub +:+ v) eqn:E; cbn [occurs];
        rewrite <- E, prefix_app; reflexivity.
    + rewrite append_cons, occurs_cons, IH. apply orb_true_r.
Qed.

(** The two wildcard tokens do not overlap themselves or each other. *)

Ltac prefix_inv H :=
  repeat (apply prefix_cons in H as [? H]); simplify_eq; try discriminate.

Ltac prefix_abs H :=
  apply not_true_iff_false in H; apply H;
  repeat (apply prefix_cons; split; [reflexivity|]); apply prefix_nil.

Lemma inside_array_array y :
  occurs "[*]" y = false → occursInside "[*]" (y +:+ "[*]") = false.
Proof.
  induction y as [|c y IH]; [reflexivity|].
  rewrite occurs_cons. intros [Hhere Hy]%orb_false_iff.
  rewrite append_cons, occursInside_cons, (IH Hy), orb_false_r.
  destruct (String.prefix "[*]" (String c (y +:+ "[*]"))) eqn:E; [|done].
  exfalso. destruct y as [|a [|b y]].
  - change ("" +:+ "[*]") with "[*]" in E. prefix_inv E.
  - change (String a "" +:+ "[*]") with (String a "[*]") in E. prefix_inv E.
  - rewrite !append_cons in E. prefix_inv E. prefix_abs Hhere.
Qed.

Lemma inside_array_object y :
  occurs "[*]" y = false → occursInside "[*]" (y +:+ ".*") = false.
Proof.
  induction y as [|c y IH]; [reflexivity|].
  rewrite occurs_cons. intros [Hhere Hy]%orb_false_iff.
  rewrite append_cons, occursInside_cons, (IH Hy), orb_false_r.
  destruct (String.prefix "[*]" (String c (y +:+ ".*"))) eqn:E; [|done].
  exfalso. destruct y as [|a [|b y]].
  - change ("" +:+ ".*") with ".*" in E. prefix_inv E.
  - change (String a "" +:+ ".*") with (String a ".*") in E. prefix_inv E.
  - rewrite !append_cons in E. prefix_inv E. prefix_abs Hhere.
Qed.

Lemma inside_object_object y :
  occurs ".*" y = false → occursInside ".*" (y +:+ ".*") = false.
Proof.
  induction y as [|c y IH]; [reflexivity|].
  rewrite occurs_cons. intros [Hhere Hy]%orb_false_iff.
  rewrite append_cons, occursInside_cons, (IH Hy), orb_false_r.
  destruct (String.prefix ".*" (String c (y +:+ ".*"))) eqn:E; [|done].
  exfalso. destruct y as [|a y].
  - change ("" +:+ ".*") with ".*" in E. prefix_inv E.
  - rewrite !append_cons in E. prefix_inv E. prefix_abs Hhere.
Qed.

End StringFacts.

(** ** [oracle_12.ts]: path segments and node classification *)

Module JsonFacts.
Import JsString JsonHelperOracle_12 StringFacts.

(** Splitting at [.*] leaves a trailing [[*]] at the end of the last
    piece: the [*] of a [.*] is never the [*] of that [[*]]. *)
Lemma splitFrom_keeps_array_suffix q k :
  endsWith "[*]" q = true →
  k = 0%nat ∨ (k = 1%nat ∧ String.prefix "*" q = true) →
  initLast (fun _ => True) (fun y => endsWith "[*]" y = true)
           (splitFrom ".*" k q).
Proof.
  revert k. induction q as [|c q IH]; intros k Hq Hk; [discriminate|].
  apply endsWith_cons_inv in Hq as [Heq|Hq].
  - injection Heq as -> ->.
    destruct Hk as [->|[-> Hp]]; [reflexivity | discriminate].
  - cbn [splitFrom]. destruct Hk as [->|[-> Hp]].
    + destruct (String.prefix ".*" (String c q)) eqn:Hpre.
      * apply prefix_cons in Hpre as [<- Hpre].
        change (String.length ".*" - 1)%nat with 1%nat.
        specialize (IH 1%nat Hq (or_intror (conj eq_refl Hpre))).
        destruct (splitFrom ".*" 1 q) as [|h t] eqn:E;
          [by apply splitFrom_nonempty in E|].
        by apply initLast_cons2.
      * specialize (IH 0%nat Hq (or_introl eq_refl)).
        destruct (splitFrom ".*" 0 q) as [|h [|h2 t]] eqn:E;
          [by apply splitFrom_nonempty in E|..]; cbn [consHead].
        -- cbn [initLast] in *. by apply endsWith_cons.
        -- apply initLast_cons2 in IH as [_ IH]. by apply initLast_cons2.
    + apply IH; [done | by left].
Qed.

(** The first stage: pieces between [[*]] tokens, with the token added
    back. *)
Lemma arrayParts_shape s :
  initLast (fun q => endsWith "[*]" q = true ∧ occursInside "[*]" q = false)
           (fun q => occursInside "[*]" q = false)
           (addBack "[*]" (split "[*]" s)).
Proof.
  apply (addBack_initLast (fun y => occurs "[*]" y = false)).
  - intros y Hy. split; [apply endsWith_app | by apply inside_array_array].
  - apply (initLast_impl (fun y => occurs "[*]" y = false)
                         (fun y => occurs "[*]" y = false));
      [done | apply occurs_false_inside |].
    apply Forall_initLast. by apply splitFrom_no_sep.
Qed.

(** The second stage on one part of the first. *)
Lemma objectParts_shape q :
  occursInside "[*]" q = false →
  initLast (fun p => noTokenInside p ∧ endsWith ".*" p = true) noTokenInside
           (addBack ".*" (split ".*" q)).
Proof.
  intros Hq.
  apply (addBack_initLast
           (fun y => occurs "[*]" y = false ∧ occurs ".*" y = false)).
  - intros y [Ha Hb]. split; [split|].
    + by apply inside_array_object.
    + by apply inside_object_object.
    + apply endsWith_app.
  - apply (initLast_impl
             (fun y => occurs "[*]" y = false ∧ occurs ".*" y = false)
             (fun y => occursInside "[*]" y = false ∧ occurs ".*" y = false));
      [done | |].
    + intros y [Ha Hb]. split; [done | by apply occurs_false_inside].
    + apply initLast_conj.
      * by apply splitFrom_inside.
      * apply Forall_initLast. by apply splitFrom_no_sep.
Qed.

Lemma objectParts_after_array q :
  endsWith "[*]" q = true →
  Forall endsWithToken (addBack ".*" (split ".*" q)).
Proof.
  intros Hq. apply initLast_Forall.
  apply (initLast_impl (fun p => endsWith ".*" p = true)
                       (fun p => endsWith "[*]" p = true)).
  - intros p Hp. unfold endsWithToken. rewrite Hp. apply orb_true_r.
  - intros p Hp. unfold endsWithToken. by rewrite Hp.
  - apply (addBack_initLast (fun _ => True)).
    + intros y _. apply endsWith_app.
    + apply splitFrom_keeps_array_suffix; [done | by left].
Qed.

Lemma objectParts_last q :
  initLast endsWithToken (fun _ => True) (addBack ".*" (split ".*" q)).
Proof.
  apply (addBack_initLast (fun _ => True)).
  - intros y _. unfold endsWithToken. rewrite endsWith_app. apply orb_true_r.
  - apply initLast_trivial.
Qed.

Lemma rawParts_join s : join (rawParts s) = s.
Proof.
  unfold rawParts.
  rewrite <- (join_addBack_split "[*]" ltac:(done) s) at 2.
  induction (addBack "[*]" (split "[*]" s)) as [|q l IH]; [done|].
  cbn [flat_map]. rewrite join_app, join_cons, IH. f_equal.
  by apply join_addBack_split.
Qed.

Lemma withRoot_startsWith q : startsWith "$" (withRoot q) = true.
Proof.
  unfold withRoot. destruct (startsWith "$" q) eqn:E; [done|].
  apply prefix_app.
Qed.

(** C9. [splitQuery] splits the path at the [[*]] and [.*] wildcards,
    with each wildcard token at the end of the segment that introduces
    it, and returns segments that begin with [$].  The segments before
    the final [map] concatenate to the path; every one of them but the
    last ends with a wildcard token; none of them has a wildcard token
    anywhere but at its end; each returned segment is the segment itself
    when that starts with [$] and the segment behind a [$] otherwise. *)
Theorem splitQuery_segments jsonPath :
  splitQuery jsonPath = map withRoot (rawParts jsonPath)
  ∧ join (rawParts jsonPath) = jsonPath
  ∧ Forall endsWithToken (removelast (rawParts jsonPath))
  ∧ Forall noTokenInside (rawParts jsonPath)
  ∧ Forall (fun q => startsWith "$" q = true) (splitQuery jsonPath)
  ∧ Forall (fun p => withRoot p = if startsWith "$" p then p else "$" +:+ p)
           (rawParts jsonPath).
Proof.
  split; [reflexivity|]. split; [apply rawParts_join|].
  split; [|split; [|split]].
  - apply initLast_removelast. unfold rawParts.
    apply (initLast_flat_map (fun q => endsWith "[*]" q = true)
                             (fun _ => True)).
    + intros q. apply addBack_nonempty, splitFrom_nonempty.
    + apply objectParts_after_array.
    + intros q _. apply objectParts_last.
    + eapply initLast_impl; [| |apply arrayParts_shape]; [|done].
      by intros q [? _].
  - unfold rawParts. apply Forall_flat_map.
    pose proof (arrayParts_shape jsonPath) as H.
    apply (initLast_impl _ _ (fun q => occursInside "[*]" q = false)
                         (fun q => occursInside "[*]" q = false)) in H;
      [|by intros q [_ ?] | done].
    apply initLast_Forall in H.
    eapply Forall_impl; [exact H|].
    intros q Hq. cbn beta. apply initLast_Forall.
    eapply initLast_impl; [| |by apply objectParts_shape]; [|done].
    by intros p [? _].
  - unfold splitQuery. apply Forall_map, Forall_forall.
    intros p _. apply withRoot_startsWith.
  - apply Forall_forall. by intros p _.
Qed.

(** *** The primitives on examples *)

Example split_array : split "[*]" "$.a[*].b" = ["$.a"; ".b"].
Proof. reflexivity. Qed.

Example split_trailing : split "[*]" "a[*]" = ["a"; ""].
Proof. reflexivity. Qed.

Example split_absent : split ".*" "x" = ["x"].
Proof. reflexivity. Qed.

Example indexOf_found : indexOf "[*]" "$.a[*].b" = 3.
Proof. reflexivity. Qed.

Example indexOf_absent : indexOf ".*" "$.a" = -1.
Proof. reflexivity. Qed.

Example indexOf_leading : indexOf ".*" ".*" = 0.
Proof. reflexivity. Qed.

Example splitQuery_nested :
  splitQuery "$.a[*].b.*.c" = ["$.a[*]"; "$.b.*"; "$.c"].
Proof. reflexivity. Qed.

Example splitQuery_trailing : splitQuery "$.a[*]" = ["$.a[*]"; "$"].
Proof. reflexivity. Qed.

(** *** Classification of the nodes *)

Lemma joinAll_nodes table primaryKey joinQueries next :
  joinedNodes (joinAll table primaryKey joinQueries next).1 = joinQueries
  ∧ extractedNodes (joinAll table primaryKey joinQueries next).1 = [].
Proof.
  revert next. induction joinQueries as [|node more IH]; intros next; [done|].
  cbn [joinAll]. unfold buildWithJson.
  destruct (buildJsonTable node _ _) as [sub next'].
  specialize (IH next').
  destruct (joinAll table primaryKey more next') as [calls next''].
  cbn in *. destruct IH as [-> ->]. done.
Qed.

(** What [preProcess] does with the nodes: the nodes of [joinQueries] get
    a derived table, and as soon as one node is select-only all of
    [this.nodes] are extracted in the main select list. *)
Lemma preProcess_nodes nodes table primaryKey next :
  let calls := (preProcess nodes table primaryKey next).1 in
  joinedNodes calls = List.filter isJoinQuery nodes
  ∧ extractedNodes calls
    = if (0 <? length (List.filter isSelectQuery nodes))%nat
      then nodes else [].
Proof.
  unfold preProcess.
  pose proof (joinAll_nodes table primaryKey
                (List.filter isJoinQuery nodes) next) as [Hj He].
  destruct (joinAll _ _ _ _) as [calls next'] eqn:E. cbn in Hj, He.
  assert (Hj' : joinedNodes
                  (if (0 <? length (List.filter isJoinQuery nodes))%nat
                   then (calls, next') else ([], next)).1
                = List.filter isJoinQuery nodes).
  { destruct (List.filter isJoinQuery nodes) as [|n l] eqn:F; [done|].
    exact Hj. }
  assert (He' : extractedNodes
                  (if (0 <? length (List.filter isJoinQuery nodes))%nat
                   then (calls, next') else ([], next)).1 = []).
  { destruct (0 <? _)%nat; [exact He | done]. }
  destruct (if (0 <? length (List.filter isJoinQuery nodes))%nat
            then (calls, next') else ([], next)) as [joins n'].
  cbn [fst] in *. unfold joinedNodes, extractedNodes in *.
  rewrite !flat_map_app, Hj', He'.
  destruct (0 <? _)%nat; cbn; by rewrite !app_nil_r.
Qed.

(** C3. Every node should be handled by exactly one strategy: by direct
    extraction when its path has no wildcard and its query is empty, by a
    derived table otherwise.  [preProcess] extracts all of [this.nodes]
    as soon as one of them is select-only, so a wildcard node next to a
    plain one is handled by both strategies; and its test for a wildcard
    is [indexOf(...) > 0], so a node whose path starts with the wildcard
    is handled by neither. *)
Theorem preProcess_handles_twice_or_never :
  let node path :=
    {| name := "data"; fieldKey := path; jsonPath := path;
       query := emptyQuery |} in
  let plain := node "$.a" in
  let wild := node "$.items[*].id" in
  let lead := node "[*].id" in
  let both := (preProcess [plain; wild] "articles" "id" 0).1 in
  let none := (preProcess [lead] "articles" "id" 0).1 in
  selectOnly plain = true
  ∧ selectOnly wild = false
  ∧ joinedNodes both = [wild]
  ∧ extractedNodes both = [plain; wild]
  ∧ selectOnly lead = false
  ∧ joinedNodes none = []
  ∧ extractedNodes none = [].
Proof. vm_compute. repeat split; reflexivity. Qed.

End JsonFacts.

(** ** The service on the concrete environment *)

Module DemoFacts.
Import ItemsService Demo.

(** C2. On create with a non-admin accountability the rows handed to the
    insert statement should be the payloads the gate processed.  Here the
    gate removes [secret] from the payload it is given, and the insert
    statement still receives, and the storage keeps, the row with
    [secret]: the gate's result is assigned to [payloads], the insert
    takes [payloadsWithoutAliases]. *)
Theorem create_persists_field_stripped_by_gate :
  let data := article "Hello" "s3cr3t" in
  let run := create env "articles" (Some editor) (One data) empty in
  notAdmin (Some editor) = true
  ∧ gateInputs (log run.2) = [Many [data]]
  ∧ Authorization.processValues authorizationService "create" "articles"
      [data] (db empty) = (Returns [{["title" := VStr "Hello"]}], db empty)
  ∧ insertedRows (log run.2) = [[data]]
  ∧ run.1 = Returns (One (VNum 1))
  ∧ table (db run.2) "articles" = [stored 1 "Hello" "s3cr3t"].
Proof. vm_compute. repeat split; reflexivity. Qed.

Lemma outcome_eta {A} (run : Outcome A * World Store) r :
  run.1 = r → run = (r, run.2).
Proof. intros <-. by destruct run. Defined.


Lemma delete_admin_false_skips_gate_witness :
  let calls :=
    callsOf (ItemsService.delete env "articles" (Some editor) (One (VNum 1)))
            (db (withArticles [stored 1 "a" "b"])) in
  admin editor = Some false
  ∧ existsb isGate calls = false
  ∧ gatedFrom false calls = false.
Proof.
  intros calls. split; [reflexivity|].
  destruct (ItemsFacts.delete_admin_false_skips_gate env "articles" editor
              (One (VNum 1)) (db (withArticles [stored 1 "a" "b"])) eq_refl)
    as (_ & Hnone & _ & Hgated).
  split; [exact Hnone | exact Hgated].
Defined.

Lemma update_batch_atomic_witness :
  let data := [stored 1 "x" "y"; article "no" "key"] in
  let w := withArticles [stored 1 "a" "b"] in
  let run := ItemsService.update env "articles" (Some editor) (UpdateBatch data) w in
  truthy (get (article "no" "key") "id") = false
  ∧ run.1 = Throws missingKey
  ∧ db run.2 = db w.
Proof.
  intros data w run. split; [reflexivity|].
  destruct (ItemsFacts.update_batch_atomic env "articles" (Some editor) data w)
    as (Hatomic & _ & Hkind & _).
  assert (H : run.1 = Throws missingKey).
  { apply (Hkind [stored 1 "x" "y"] (article "no" "key") [] (Many [VNum 1])
             (ItemsService.update env "articles" (Some editor)
                (UpdateBatch [stored 1 "x" "y"]) w).2);
      [reflexivity | | reflexivity].
    apply outcome_eta. vm_compute. reflexivity. }
  split; [exact H | exact (Hatomic _ H)].
Defined.

Lemma demo_quiet accountability : quiet env "articles" accountability.
Proof.
  unfold quiet, returns. cbn. repeat split; intros; eexists _, _; reflexivity.
Defined.



Lemma readByKey_absent_is_undefined_witness :
  let w := withArticles [stored 1 "a" "b"] in
  (readByKey env "articles" (Some editor) (One (VNum 7)) emptyQuery "read" w).1
  = Returns (FoundOne None).
Proof.
  intros w.
  refine (proj1 (ItemsFacts.readByKey_absent_is_undefined env "articles"
                   (Some editor) (One (VNum 7)) emptyQuery "read" w
                   ("articles", queryWithFilter emptyQuery "id" [VNum 7]) (db w)
                   ("articles", queryWithFilter emptyQuery "id" [VNum 7]) (db w)
                   [] (db w) [] (db w) _ _ _ _) (VNum 7) eq_refl eq_refl);
    vm_compute; reflexivity.
Defined.

(** C7. The claim that every condition of the caller's filter survives,
    also one on the primary-key field, fails: a caller's condition
    [id _eq 5] is replaced by [id _in [1]]. *)
Lemma readByKey_drops_caller_key_condition :
  let caller : Filter := {["id" := {["_eq" := OValue (VNum 5)]}]} in
  let query := {| filter := Some caller; limit := None; rest := ∅ |} in
  ∃ executed,
    executedQueries
      (callsOf (readByKey env "articles" None (One (VNum 1)) query "read")
               (db empty))
    = [executed]
    ∧ ¬ preservesFilter caller executed.
Proof.
  intros caller query. eexists. split; [vm_compute; reflexivity|].
  intros H.
  destruct (H "id" {["_eq" := OValue (VNum 5)]} eq_refl) as (cond & Hc & Hsub).
  vm_compute in Hc. injection Hc as <-.
  specialize (Hsub "_eq"). vm_compute in Hsub. exact Hsub.
Qed.

Lemma readByKey_filter_keeps_other_fields_witness :
  let caller : Filter := {["title" := {["_eq" := OValue (VStr "a")]}]} in
  let query := {| filter := Some caller; limit := None; rest := ∅ |} in
  ∃ executed,
    executedQueries
      (callsOf (readByKey env "articles" None (One (VNum 1)) query "read")
               (db empty))
    = [executed]
    ∧ "title" ≠ primary env "articles"
    ∧ default ∅ (filter executed) !! "title" = caller !! "title".
Proof.
  intros caller query.
  destruct (ItemsFacts.readByKey_filter_keeps_other_fields env "articles" None
              (One (VNum 1)) query "read" (db empty))
    as (executed & Hexec & _ & Hother & _).
  exists executed. split; [exact Hexec|].
  split; [discriminate|]. apply Hother. discriminate.
Defined.

Lemma readSingleton_defaults_witness :
  readSingleton env "articles" (Some editor) emptyQuery empty
  = (Returns {["id" := VNull; "slug" := VNull; "title" := VStr "untitled";
               "secret" := VNull]},
     (readByQuery env "articles" (Some editor)
        {| filter := None; limit := Some 1; rest := ∅ |} empty).2)
  ∧ NoDup (map (columnName env) (columnInfo env "articles"))
  ∧ defaultsOf (columnName env) (getDefaultValue env)
      (columnInfo env "articles") !! "title"
    = Some (VStr "untitled").
Proof.
  destruct (ItemsFacts.readSingleton_defaults env "articles" (Some editor)
              emptyQuery empty) as (_ & Hnone & _ & _ & _ & Hlookup).
  pose (run := readByQuery env "articles" (Some editor)
                 {| filter := None; limit := Some 1; rest := ∅ |} empty).
  assert (H : run.1 = Returns []) by (vm_compute; reflexivity).
  assert (Hnd : NoDup (map (columnName env) (columnInfo env "articles"))).
  { cbn.
    repeat (apply NoDup_cons; split;
            [by intros ?%list_elem_of_In; simpl in *; intuition discriminate|]).
    apply NoDup_nil_2. }
  split; [|split; [exact Hnd|]].
  - rewrite (Hnone _ (outcome_eta run _ H)). vm_compute. reflexivity.
  - apply (Hlookup Hnd ("title", VStr "untitled")).
    apply list_elem_of_In. simpl. tauto.
Defined.

Lemma upsertSingleton_keys_on_id_witness :
  let w := {| db := {| rows := {["pages" := [{["slug" := VStr "home"]}]]};
                       activity := [] |};
              log := [] |} in
  primary env "pages" ≠ "id"
  ∧ (upsertSingleton env "pages" (Some editor) (article "t" "s") w).1
    = Throws (TypeError "data is not iterable").
Proof.
  intros w. split; [discriminate|].
  destruct (ItemsFacts.upsertSingleton_keys_on_id env "pages" (Some editor)
              (article "t" "s") w {["slug" := VStr "home"]} (db w) eq_refl)
    as [_ H].
  destruct H as (_ & _ & ->); [discriminate | | reflexivity].
  intros k Hk. apply lookup_singleton_ne. intros Heq. apply Hk.
  symmetry. exact Heq.
Defined.

End DemoFacts.

(** ** More on the monad: what is logged, and independence of the log *)

Section LogFacts.
Context {DB : Type}.

Lemma emits_ret {A} P (a : A) : emits (DB := DB) P (ret a).
Proof. intros w. exists []. cbn. by rewrite app_nil_r. Qed.

Lemma emits_throw {A} P e : emits (DB := DB) (A := A) P (throw e).
Proof. intros w. exists []. cbn. by rewrite app_nil_r. Qed.

Lemma emits_call {A} (P : Call → Prop) c (f : Ext DB A) :
  P c → emits P (call c f).
Proof.
  intros Hc w. exists [c]. unfold call. destruct (f (db w)).
  split; [done | by repeat constructor].
Qed.

Lemma emits_bind {A B} P (m : M DB A) (k : A → M DB B) :
  emits P m → (∀ a, emits P (k a)) → emits P (bind m k).
Proof.
  intros Hm Hk w. unfold bind. destruct (Hm w) as (l & Hl & HP).
  destruct (m w) as [[a|e] w1]; cbn in Hl.
  - destruct (Hk a w1) as (l' & Hl' & HP'). exists (l ++ l').
    split; [by rewrite Hl', Hl, app_assoc | by apply Forall_app].
  - by exists l.
Qed.

Lemma emits_transaction {A} (P : Call → Prop) (body : M DB A) :
  P Begin → P Commit → P Rollback →
  emits P body → emits P (transaction body).
Proof.
  intros HB HC HR Hb w. unfold transaction.
  destruct (Hb {| db := db w; log := log w ++ [Begin] |}) as (l & Hl & HP).
  destruct (body _) as [[a|e] w1]; cbn in *.
  - exists (Begin :: l ++ [Commit]). split.
    + by rewrite Hl, <- !app_assoc.
    + constructor; [done|]. apply Forall_app. by repeat constructor.
  - exists (Begin :: l ++ [Rollback]). split.
    + by rewrite Hl, <- !app_assoc.
    + constructor; [done|]. apply Forall_app. by repeat constructor.
Qed.

Lemma emits_forOf {A S} P (l : list A) (f : S → A → M DB S) acc :
  (∀ acc0 x, emits P (f acc0 x)) → emits P (forOf l f acc).
Proof.
  intros Hf. revert acc. induction l as [|x l IH]; intros acc.
  - apply emits_ret.
  - cbn. apply emits_bind; [apply Hf | apply IH].
Qed.

Lemma emits_calls {A} P (m : M DB A) d : emits P m → Forall P (callsOf m d).
Proof.
  intros Hm. unfold callsOf.
  destruct (Hm {| db := d; log := [] |}) as (l & -> & HP). exact HP.
Qed.

Lemma logFree_ret {A} (a : A) : logFree (DB := DB) (ret a).
Proof. by intros d l l'. Qed.

Lemma logFree_throw {A} e : logFree (DB := DB) (A := A) (throw e).
Proof. by intros d l l'. Qed.

Lemma logFree_call {A} c (f : Ext DB A) : logFree (call c f).
Proof. intros d l l'. unfold call. cbn. by destruct (f d). Qed.

Lemma logFree_bind {A B} (m : M DB A) (k : A → M DB B) :
  logFree m → (∀ a, logFree (k a)) → logFree (bind m k).
Proof.
  intros Hm Hk d l l'. unfold bind. destruct (Hm d l l') as [Ho Hd].
  destruct (m {| db := d; log := l |}) as [[a|e] [d1 l1]];
    destruct (m {| db := d; log := l' |}) as [[a'|e'] [d1' l1']];
    cbn in Ho, Hd; simplify_eq; [apply Hk | done].
Qed.

Lemma logFree_transaction {A} (body : M DB A) :
  logFree body → logFree (transaction body).
Proof.
  intros Hb d l l'. unfold transaction. cbn [db log].
  destruct (Hb d (l ++ [Begin]) (l' ++ [Begin])) as [Ho Hd].
  destruct (body {| db := d; log := l ++ [Begin] |}) as [[a|e] w1];
    destruct (body {| db := d; log := l' ++ [Begin] |}) as [[a'|e'] w1'];
    cbn in Ho, Hd; by simplify_eq.
Qed.

Lemma logFree_forOf {A S} (l : list A) (f : S → A → M DB S) acc :
  (∀ acc0 x, logFree (f acc0 x)) → logFree (forOf l f acc).
Proof.
  intros Hf. revert acc. induction l as [|x l IH]; intros acc.
  - apply logFree_ret.
  - cbn. apply logFree_bind; [apply Hf | apply IH].
Qed.

(** A method that does not depend on the log returns on a state when it
    returns on a state with the same storage. *)
Lemma logFree_returns {A} (m : M DB A) w a w1 l :
  logFree m → m w = (Returns a, w1) →
  ∃ w2, m {| db := db w; log := l |} = (Returns a, w2) ∧ db w2 = db w1.
Proof.
  intros Hm Hw. destruct w as [d l0]. cbn [db].
  destruct (Hm d l0 l) as [Ho Hd]. rewrite Hw in Ho, Hd. cbn in Ho, Hd.
  destruct (m {| db := d; log := l |}) as [r w2]. cbn in *. subst r.
  exists w2. split; [reflexivity | by symmetry].
Qed.

(** Two methods that differ in their last step only are related as their
    last steps are. *)
Lemma bind_related {A B C}
    (R : Outcome B * World DB → Outcome C * World DB → Prop)
    (m : M DB A) (k : A → M DB B) (k' : A → M DB C) w :
  (∀ e w', R (Throws e, w') (Throws e, w')) →
  (∀ a w', R (k a w') (k' a w')) →
  R (bind m k w) (bind m k' w).
Proof.
  intros He Hk. unfold bind. destruct (m w) as [[a|e] w1]; [apply Hk | apply He].
Qed.

Lemma call_throws_at {A} c (f : Ext DB A) d l e d' :
  f d = (Throws e, d') →
  call c f {| db := d; log := l |}
  = (Throws e, {| db := d'; log := l ++ [c] |}).
Proof. intros H. unfold call. cbn. by rewrite H. Qed.

End LogFacts.

(** ** More on [items.ts] *)

Module ItemsMore.
Import ItemsService.

Section More.
Context {DB AST Column : Type}.
Variable env : Env DB AST Column.
Variable collection : string.

Lemma call_inv_returns {A} c (f : Ext DB A) w a w1 :
  call c f w = (Returns a, w1) →
  ∃ d, f (db w) = (Returns a, d) ∧ w1 = {| db := d; log := log w ++ [c] |}.
Proof.
  unfold call. destruct (f (db w)) as [[a'|e] d]; [|discriminate].
  intros [= <- <-]. eauto.
Qed.

Lemma activityOf_app l l' : activityOf (l ++ l') = activityOf l ++ activityOf l'.
Proof. apply flat_map_app. Qed.


(** *** [create] *)

(** The calls of a [create] that returns, in their order. *)
Lemma create_trace accountability data w r w' :
  create env collection accountability data w = (Returns r, w') →
  ∃ ps rows gated keys,
    log w'
    = log w
      ++ [Begin; PayloadProcessM2O (Many (toArray data));
          PayloadProcessValues "create"
            (Many (map (fun p => pick p (columns env collection)) ps))]
      ++ (if notAdmin accountability
          then [AuthProcessValues "create" collection (Many ps)] else [])
      ++ [Insert rows collection (primary env collection)]
      ++ match accountability with
         | Some a => [InsertActivity (activityRecords CREATE a collection keys)]
         | None => []
         end
      ++ [PayloadProcessO2M
            (Many (imap (fun i p =>
                           <[primary env collection := nth i keys VUndefined]> p)
                        gated));
          Commit]
    ∧ r = match data with
          | Many _ => Many keys
          | One _ => One (nth 0 keys VUndefined)
          end
    ∧ (notAdmin accountability = false → gated = ps).
Proof.
  unfold create. intros H.
  apply bind_inv_returns in H as (keys & w1 & H & [= <- <-]).
  apply transaction_inv_returns in H as (w2 & H & ->).
  apply bind_inv_returns in H as (ps & w3 & Hm2o & H).
  apply call_inv_returns in Hm2o as (d3 & _ & ->).
  apply bind_inv_returns in H as (rows & w4 & Hvalues & H).
  apply call_inv_returns in Hvalues as (d4 & _ & ->).
  apply bind_inv_returns in H as (gated & w5 & Hgate & H).
  apply bind_inv_returns in H as (keys' & w6 & Hins & H).
  apply bind_inv_returns in H as (u & w7 & Hact & H).
  apply bind_inv_returns in H as (u' & w8 & Ho2m & [= <- <-]).
  apply call_inv_returns in Ho2m as (d8 & _ & ->).
  apply call_inv_returns in Hins as (d6 & _ & ->).
  exists ps, rows, gated, keys'. cbn [log].
  split; [|split; [done|]].
  - destruct (notAdmin accountability).
    + apply call_inv_returns in Hgate as (d5 & _ & ->). cbn [log].
      destruct accountability as [a|].
      * apply call_inv_returns in Hact as (d7 & _ & ->). cbn [log].
        by rewrite <- !app_assoc.
      * injection Hact as _ <-. cbn [log]. by rewrite <- !app_assoc.
    + injection Hgate as <- <-. cbn [log].
      destruct accountability as [a|].
      * apply call_inv_returns in Hact as (d7 & _ & ->). cbn [log].
        by rewrite <- !app_assoc.
      * injection Hact as _ <-. cbn [log]. by rewrite <- !app_assoc.
  - intros Hna. rewrite Hna in Hgate. by injection Hgate as <- _.
Qed.

(** X1. [create] is all or nothing: whatever it throws, and wherever in
    its body, the storage is left as it was found. *)
Theorem create_atomic accountability data w e w' :
  create env collection accountability data w = (Throws e, w') →
  db w' = db w.
Proof.
  unfold create, bind at 1.
  destruct (transaction _ w) as [[keys|e'] w1] eqn:Ht; [discriminate|].
  intros [= <- <-]. by apply transaction_throws_db in Ht.
Qed.

(** X2. A [create] that returns has written the audit trail of its
    insert: with an accountability, one activity record per returned key,
    in the order of the keys, with action [CREATE] and the user, ip and
    user agent of the accountability; without one, no record at all. *)
Theorem create_audit accountability data w r w' :
  create env collection accountability data w = (Returns r, w') →
  ∃ calls keys,
    log w' = log w ++ calls
    ∧ r = match data with
          | Many _ => Many keys
          | One _ => One (nth 0 keys VUndefined)
          end
    ∧ activityOf calls
      = match accountability with
        | Some a =>
            [map (fun key => {| Activity.action := CREATE;
                                Activity.action_by := user a;
                                Activity.collection := collection;
                                Activity.ip := ip a;
                                Activity.user_agent := userAgent a;
                                Activity.item := key |}) keys]
        | None => []
        end.
Proof.
  intros H.
  apply create_trace in H as (ps & rows & gated & keys & Hlog & Hr & _).
  eexists _, keys. split; [exact Hlog|]. split; [exact Hr|].
  rewrite !activityOf_app.
  destruct (notAdmin accountability), accountability; reflexivity.
Qed.


(** X4. A [create] that the gate refuses inserts nothing: when the
    gate's value processing throws, no insert statement is issued, the
    transaction is rolled back and the gate's exception is what [create]
    throws. *)
Theorem create_refused accountability data w ps d1 rows d2 e d3 :
  notAdmin accountability = true →
  Payload.processM2O (PayloadService env collection accountability)
    (toArray data) (db w) = (Returns ps, d1) →
  Payload.processValues (PayloadService env collection accountability)
    "create" (map (fun p => pick p (columns env collection)) ps) d1
    = (Returns rows, d2) →
  Authorization.processValues (AuthorizationService env accountability)
    "create" collection ps d2 = (Throws e, d3) →
  create env collection accountability data w
  = (Throws e,
     {| db := db w;
        log := log w
               ++ [Begin; PayloadProcessM2O (Many (toArray data));
                   PayloadProcessValues "create"
                     (Many (map (fun p => pick p (columns env collection)) ps));
                   AuthProcessValues "create" collection (Many ps);
                   Rollback] |}).
Proof.
  intros Hna Hm2o Hvalues Hgate. unfold create. rewrite Hna.
  destruct w as [d l]. cbn [db log] in *.
  unfold bind at 1, transaction. cbn [db log].
  unfold bind at 1. rewrite (call_returns_at _ _ _ _ _ _ Hm2o).
  unfold bind at 1. rewrite (call_returns_at _ _ _ _ _ _ Hvalues).
  unfold bind at 1, call at 1. cbn [db log]. rewrite Hgate. cbn [log].
  by rewrite <- !app_assoc.
Qed.

(** *** [update] *)

(** X5. An [update] that the gate refuses writes nothing: when the access
    check throws, [update] throws the same exception having made no other
    call (no transaction, no statement); when the access check passes and
    the validation throws, likewise after these two calls. *)
Theorem update_refused accountability args data key w :
  notAdmin accountability = true →
  keyed args = Some (data, key) →
  let gate := AuthorizationService env accountability in
  let keys := Many (toArray key) in
  (∀ e d1,
     Authorization.checkAccess gate "update" collection keys (db w)
     = (Throws e, d1) →
     update env collection accountability args w
     = (Throws e,
        {| db := d1;
           log := log w ++ [AuthCheckAccess "update" collection keys] |}))
  ∧ (∀ u d1 e d2,
       Authorization.checkAccess gate "update" collection keys (db w)
       = (Returns u, d1) →
       Authorization.processValues_1 gate "validate" collection data d1
       = (Throws e, d2) →
       update env collection accountability args w
       = (Throws e,
          {| db := d2;
             log := log w
                    ++ [AuthCheckAccess "update" collection keys;
                        AuthProcessValues "validate" collection (One data)] |})).
Proof.
  intros Hna Hkeyed gate keys.
  assert (Hup : update env collection accountability args w
                = updateSame env collection accountability data key w).
  { unfold update. destruct args as [data' keys'|data' key'|data'];
      cbn in Hkeyed.
    - injection Hkeyed as <- <-. by rewrite ItemsFacts.updateRec_keys.
    - destruct (truthy key') eqn:Hk; [|discriminate].
      injection Hkeyed as <- <-. by rewrite ItemsFacts.updateRec_keyed.
    - discriminate. }
  rewrite Hup. unfold updateSame. rewrite Hna.
  destruct w as [d l]. cbn [db log].
  split.
  - intros e d1 Hcheck.
    unfold bind at 1. unfold bind at 1.
    by rewrite (call_throws_at _ _ _ _ _ _ Hcheck).
  - intros u d1 e d2 Hcheck Hvalidate.
    unfold bind at 1. unfold bind at 1.
    rewrite (call_returns_at _ _ _ _ _ _ Hcheck).
    rewrite (call_throws_at _ _ _ _ _ _ Hvalidate).
    by rewrite <- !app_assoc.
Qed.

(** [pick] keeps exactly the listed properties. *)
Lemma pick_lookup (o : Item) paths k :
  pick o paths !! k = if decide (k ∈ paths) then o !! k else None.
Proof.
  induction paths as [|c paths IH]; cbn [pick foldr].
  - rewrite lookup_empty. case_decide as H; [by inversion H | done].
  - fold (pick o paths).
    destruct (decide (k = c)) as [->|Hne].
    + rewrite decide_True by apply list_elem_of_here.
      destruct (o !! c) as [v|] eqn:Hc; [by rewrite lookup_insert_eq|].
      rewrite IH. by case_decide.
    + assert (Hin : k ∈ c :: paths ↔ k ∈ paths).
      { rewrite elem_of_cons. tauto. }
      destruct (o !! c) as [v|]; [rewrite lookup_insert_ne by done|];
        rewrite IH; repeat case_decide; tauto.
Qed.

Ltac emits_step tac :=
  first [ apply emits_ret
        | apply emits_throw
        | apply emits_call; tac
        | apply emits_transaction; [tac..|]
        | apply emits_bind; [|intros ?] ].

Lemma updateSame_emits (P : Call → Prop) accountability data key :
  (∀ c, isUpdateCall c = true → rowWithin (columns env collection) c → P c) →
  emits P (updateSame env collection accountability data key).
Proof.
  intros HP. unfold updateSame.
  destruct (notAdmin accountability);
    repeat emits_step ltac:(try (apply HP; [reflexivity|]; cbn; try done)).
  all: intros k Hk; rewrite pick_lookup in Hk;
    case_decide; [done | by destruct Hk].
Qed.

Lemma update_emits_from (P : Call → Prop) accountability args :
  P Begin → P Commit → P Rollback →
  (∀ data key,
     emits P (updateSame env collection accountability data key)) →
  emits P (update env collection accountability args).
Proof.
  intros HB HC HR Hsame w. unfold update.
  destruct args as [data keys|data key|data].
  - rewrite ItemsFacts.updateRec_keys. apply Hsame.
  - destruct (truthy key) eqn:Hkey.
    + rewrite ItemsFacts.updateRec_keyed by done. apply Hsame.
    + rewrite ItemsFacts.updateRec_unkeyed by done. cbn [snd log].
      exists [Begin; Rollback]. split; [done|]. by repeat constructor.
  - rewrite ItemsFacts.updateRec_batch. revert w.
    apply emits_bind; [|intros keys; apply emits_ret].
    apply emits_transaction; [done..|].
    apply emits_forOf. intros keys single. unfold batchStep.
    destruct (negb _); [apply emits_throw|].
    apply emits_bind; [apply Hsame | intros _; apply emits_ret].
Qed.

Lemma update_emits (P : Call → Prop) accountability args :
  (∀ c, isUpdateCall c = true → rowWithin (columns env collection) c → P c) →
  emits P (update env collection accountability args).
Proof.
  intros HP. apply update_emits_from; [by apply HP..|].
  intros data key. by apply updateSame_emits.
Qed.

(** X6. [update], in both of its modes, makes no call but the access
    check and validation of the gate, the processing of one payload, the
    update statement and the marks of its transactions: it never writes an
    activity record and never issues an insert or delete statement. *)
Theorem update_writes_no_activity accountability args d :
  let calls := callsOf (update env collection accountability args) d in
  Forall (fun c => isUpdateCall c = true) calls
  ∧ activityOf calls = []
  ∧ insertedRows calls = [].
Proof.
  intros calls.
  assert (H : Forall (fun c => isUpdateCall c = true) calls).
  { apply emits_calls, update_emits. auto. }
  split; [exact H|].
  induction H as [|c l Hc Hl [IH1 IH2]]; [done|].
  unfold activityOf, insertedRows in *. cbn [flat_map].
  rewrite IH1, IH2. by destruct c.
Qed.

(** X7. The row of every update statement that [update] issues carries
    only fields that are columns of the collection: whatever the payload
    processing returns, fields that are no columns are stripped before the
    statement. *)
Theorem update_rows_are_columns accountability args d row :
  row ∈ updatedRows (callsOf (update env collection accountability args) d) →
  ∀ k, is_Some (row !! k) → k ∈ columns env collection.
Proof.
  assert (H : Forall (rowWithin (columns env collection))
                (callsOf (update env collection accountability args) d)).
  { apply emits_calls, update_emits. auto. }
  induction H as [|c l Hc Hl IH]; [by intros ?%elem_of_nil|].
  unfold updatedRows in *. cbn [flat_map]. rewrite elem_of_app.
  intros [Hrow|Hrow]; [|by apply IH].
  destruct c; try by apply elem_of_nil in Hrow.
  apply list_elem_of_singleton in Hrow as ->. exact Hc.
Qed.

(** X8. With an admin accountability, or with none, [create] and [update]
    never call the Authorization Gate. *)
Theorem admin_bypasses_gate accountability data args d :
  notAdmin accountability = false →
  existsb isGate (callsOf (create env collection accountability data) d) = false
  ∧ existsb isGate (callsOf (update env collection accountability args) d)
    = false.
Proof.
  intros Hna.
  assert (Hno : ∀ l, Forall (fun c => isGate c = false) l →
                     existsb isGate l = false).
  { intros l Hl. induction Hl as [|c l Hc Hl IH]; [done|].
    cbn. by rewrite Hc, IH. }
  split; apply Hno, emits_calls.
  - unfold create. rewrite Hna.
    destruct accountability; repeat emits_step ltac:(try done).
  - apply update_emits_from; [done..|].
    intros data' key. unfold updateSame. rewrite Hna.
    repeat emits_step ltac:(try done).
Qed.

(** X21. Without a gate call, that is with an admin accountability or
    with none, [update] is all or nothing in each of its modes: whatever it
    throws, the storage is left as it was found. *)
Theorem update_atomic_ungated accountability args w e w' :
  notAdmin accountability = false →
  update env collection accountability args w = (Throws e, w') →
  db w' = db w.
Proof.
  intros Hna.
  assert (Hsame : ∀ data key,
            updateSame env collection accountability data key w
            = (Throws e, w') → db w' = db w).
  { intros data key. unfold updateSame. rewrite Hna.
    unfold bind at 1, ret at 1. unfold bind at 1.
    destruct (transaction _ w) as [[u|e'] w1] eqn:Ht; [discriminate|].
    intros [= <- <-]. by apply transaction_throws_db in Ht. }
  unfold update. destruct args as [data keys|data key|data].
  - rewrite ItemsFacts.updateRec_keys. apply Hsame.
  - destruct (truthy key) eqn:Hkey.
    + rewrite ItemsFacts.updateRec_keyed by done. apply Hsame.
    + rewrite ItemsFacts.updateRec_unkeyed by done. by intros [= <- <-].
  - rewrite ItemsFacts.updateRec_batch. unfold bind at 1.
    destruct (transaction _ w) as [[u|e'] w1] eqn:Ht; [discriminate|].
    intros [= <- <-]. by apply transaction_throws_db in Ht.
Qed.

(** *** [delete] *)

(** X9. A [delete] that returns has issued one delete statement over all
    the keys given and, with an accountability, one activity record per
    key with action [DELETE], both inside one transaction that follows the
    access check; it returns the key or keys it was given. *)
Theorem delete_trace accountability key w r w' :
  delete env collection accountability key w = (Returns r, w') →
  r = key
  ∧ log w'
    = log w
      ++ (if adminIsNotFalse accountability
          then [AuthCheckAccess "delete" collection key] else [])
      ++ [Begin; Delete collection (primary env collection) (toArray key)]
      ++ match accountability with
         | Some a =>
             [InsertActivity
                (map (fun k => {| Activity.action := DELETE;
                                  Activity.action_by := user a;
                                  Activity.collection := collection;
                                  Activity.ip := ip a;
                                  Activity.user_agent := userAgent a;
                                  Activity.item := k |}) (toArray key))]
         | None => []
         end
      ++ [Commit].
Proof.
  unfold delete. intros H.
  apply bind_inv_returns in H as (u & w1 & Hgate & H).
  apply bind_inv_returns in H as (u' & w2 & H & [= <- <-]).
  split; [done|].
  apply transaction_inv_returns in H as (w3 & H & ->).
  apply bind_inv_returns in H as (u2 & w4 & Hdel & Hact).
  apply call_inv_returns in Hdel as (d4 & _ & ->). cbn [log].
  assert (Hw1 : log w1
                = log w ++ (if adminIsNotFalse accountability
                            then [AuthCheckAccess "delete" collection key]
                            else [])).
  { destruct (adminIsNotFalse accountability).
    - by apply call_inv_returns in Hgate as (d1 & _ & ->).
    - injection Hgate as _ <-. by rewrite app_nil_r. }
  destruct accountability as [a|].
  - apply call_inv_returns in Hact as (d5 & _ & ->). cbn [log].
    rewrite Hw1. by rewrite <- !app_assoc.
  - injection Hact as _ <-. cbn [log]. rewrite Hw1. by rewrite <- !app_assoc.
Qed.

(** X10. [delete] leaves no partial write of its own: when it throws, be
    it in the access check, in the delete statement or in the write of the
    activity records, the storage is the one the access check left (the
    one found, when no access check is made). *)
Theorem delete_atomic accountability key w e w' :
  delete env collection accountability key w = (Throws e, w') →
  db w'
  = if adminIsNotFalse accountability
    then (Authorization.checkAccess (AuthorizationService env accountability)
            "delete" collection key (db w)).2
    else db w.
Proof.
  unfold delete. unfold bind at 1.
  destruct (adminIsNotFalse accountability).
  - unfold call at 1.
    destruct (Authorization.checkAccess _ _ _ _ _) as [[u|e1] d1]; cbn [snd].
    + unfold bind at 1.
      destruct (transaction _ _) as [[u'|e'] w1] eqn:Ht; [discriminate|].
      intros [= <- <-]. by apply transaction_throws_db in Ht.
    + by intros [= <- <-].
  - unfold ret at 1. unfold bind at 1.
    destruct (transaction _ _) as [[u'|e'] w1] eqn:Ht; [discriminate|].
    intros [= <- <-]. by apply transaction_throws_db in Ht.
Qed.

(** X11. A [delete] that the access check refuses deletes nothing: it
    throws the exception of the check having made no other call. *)
Theorem delete_refused accountability key w e d1 :
  adminIsNotFalse accountability = true →
  Authorization.checkAccess (AuthorizationService env accountability)
    "delete" collection key (db w) = (Throws e, d1) →
  delete env collection accountability key w
  = (Throws e,
     {| db := d1; log := log w ++ [AuthCheckAccess "delete" collection key] |}).
Proof.
  intros Hgate Hcheck. unfold delete. rewrite Hgate.
  unfold bind at 1. by rewrite (call_throws _ _ _ _ _ Hcheck).
Qed.

(** *** Reads *)

Lemma readByQuery_emits accountability query :
  emits (fun c => isReadCall c = true)
        (readByQuery env collection accountability query).
Proof.
  unfold readByQuery.
  destruct (adminIsFalse accountability); repeat emits_step ltac:(try done).
Qed.

Lemma readByKey_emits accountability key query operation :
  emits (fun c => isReadCall c = true)
        (readByKey env collection accountability key query operation).
Proof.
  unfold readByKey.
  destruct (notAdmin accountability); repeat emits_step ltac:(try done).
Qed.

Lemma readSingleton_emits accountability query :
  emits (fun c => isReadCall c = true)
        (readSingleton env collection accountability query).
Proof.
  unfold readSingleton.
  apply emits_bind; [apply readByQuery_emits|].
  intros records. destruct (head records); apply emits_ret.
Qed.

Lemma isReadCall_not_write c :
  isReadCall c = true → isWrite c = false ∧ isGate c = false.
Proof. by destruct c. Qed.

(** X12. The read methods write nothing and ask the gate for no write:
    [readByQuery], [readByKey] and [readSingleton] issue no insert, update
    or delete statement, write no activity record, hand nothing to the
    relational writes of the payload service, open no transaction, and
    call neither [checkAccess] nor the gate's [processValues]. *)
Theorem reads_never_write accountability key query operation d :
  Forall (fun c => isWrite c = false ∧ isGate c = false)
         (callsOf (readByQuery env collection accountability query) d)
  ∧ Forall (fun c => isWrite c = false ∧ isGate c = false)
           (callsOf (readByKey env collection accountability key query
                       operation) d)
  ∧ Forall (fun c => isWrite c = false ∧ isGate c = false)
           (callsOf (readSingleton env collection accountability query) d).
Proof.
  split; [|split];
    (eapply Forall_impl; [apply emits_calls|exact isReadCall_not_write]).
  - apply readByQuery_emits.
  - apply readByKey_emits.
  - apply readSingleton_emits.
Qed.

(** X13. The two read methods guard the gate differently: [readByQuery]
    has the AST rewritten by the gate exactly when the accountability has
    [admin === false], [readByKey] exactly when it has an accountability
    whose [admin] is not [true] (in both, provided the AST was built). *)
Theorem read_gate_guards accountability key query operation d :
  existsb isProcessAST
    (callsOf (readByQuery env collection accountability query) d)
  = adminIsFalse accountability
    && isReturns (getASTFromQuery env collection query accountability None d)
  ∧ existsb isProcessAST
      (callsOf (readByKey env collection accountability key query operation) d)
    = notAdmin accountability
      && isReturns (getASTFromQuery env collection
                      (queryWithFilter query (primary env collection)
                         (toArray key))
                      accountability (Some operation) d).
Proof.
  split.
  - unfold callsOf, readByQuery, isReturns.
    unfold bind at 1. run_call; cbn [db] in Hcall; rewrite Hcall; cbn [fst];
      [|by rewrite andb_false_r].
    rewrite andb_true_r. unfold bind at 1.
    destruct (adminIsFalse accountability).
    + run_call; [|reflexivity].
      unfold bind at 1. run_call; [|reflexivity].
      unfold bind at 1. run_call; reflexivity.
    + unfold ret at 1.
      unfold bind at 1. run_call; [|reflexivity].
      unfold bind at 1. run_call; reflexivity.
  - unfold callsOf, readByKey, isReturns.
    unfold bind at 1. run_call; cbn [db] in Hcall; rewrite Hcall; cbn [fst];
      [|by rewrite andb_false_r].
    rewrite andb_true_r. unfold bind at 1.
    destruct (notAdmin accountability).
    + run_call; [|reflexivity].
      unfold bind at 1. run_call; [|reflexivity].
      unfold bind at 1. run_call; reflexivity.
    + unfold ret at 1.
      unfold bind at 1. run_call; [|reflexivity].
      unfold bind at 1. run_call; reflexivity.
Qed.

(** X14. Reading one key is reading the array of that key and taking its
    first item: when [readByKey([k])] returns [items], [readByKey(k)]
    returns [items[0]] ([undefined] for no item), with the same calls and
    the same storage; and when the one throws, so does the other. *)
Theorem readByKey_single_is_first accountability k query operation w :
  match readByKey env collection accountability (Many [k]) query operation w
  with
  | (Returns (FoundMany items), w') =>
      readByKey env collection accountability (One k) query operation w
      = (Returns (FoundOne (head items)), w')
  | (Returns (FoundOne _), _) => False
  | (Throws e, w') =>
      readByKey env collection accountability (One k) query operation w
      = (Throws e, w')
  end.
Proof.
  unfold readByKey. cbn [toArray isArray].
  repeat (apply (bind_related
                   (fun x y : Outcome Found * World DB =>
                      match x with
                      | (Returns (FoundMany items), w') =>
                          y = (Returns (FoundOne (head items)), w')
                      | (Returns (FoundOne _), _) => False
                      | (Throws e, w') => y = (Throws e, w')
                      end)); [done|]; intros ? ?).
  reflexivity.
Qed.

(** *** [upsertSingleton] *)

(** X15. [upsertSingleton] dispatches on the probe: without a row it is
    [create] of the payload; when the probe throws, nothing else is done;
    and for a collection whose primary-key field is named [id], with a row
    whose [id] is truthy, it returns that key whenever it returns, and does
    return when the collaborators of the update do. *)
Theorem upsertSingleton_dispatch accountability data w d' :
  let primaryKeyField := primary env collection in
  let probe := Knex.selectFirst (knex env) primaryKeyField collection (db w) in
  let w1 := {| db := d';
               log := log w ++ [SelectFirst primaryKeyField collection] |} in
  (probe = (Returns None, d') →
   upsertSingleton env collection accountability data w
   = create env collection accountability (One data) w1)
  ∧ (∀ e, probe = (Throws e, d') →
       upsertSingleton env collection accountability data w = (Throws e, w1))
  ∧ (∀ record,
       probe = (Returns (Some record), d') →
       truthy (get record "id") = true →
       (∀ r w',
          upsertSingleton env collection accountability data w = (Returns r, w') →
          r = One (get record "id"))
       ∧ (quiet env collection accountability →
          ∃ w', upsertSingleton env collection accountability data w
                = (Returns (One (get record "id")), w'))).
Proof.
  intros primaryKeyField probe w1. unfold upsertSingleton.
  fold primaryKeyField. split; [|split].
  - intros Hprobe.
    by rewrite (bind_returns _ _ _ _ _ (call_returns _ _ _ _ _ Hprobe)).
  - intros e Hprobe. unfold bind. by rewrite (call_throws _ _ _ _ _ Hprobe).
  - intros record Hprobe Hid.
    rewrite (bind_returns _ _ _ _ _ (call_returns _ _ _ _ _ Hprobe)).
    fold w1. split.
    + intros r w' H. by apply ItemsFacts.update_returns in H.
    + intros Hq.
      destruct (ItemsFacts.update_total env collection accountability
                  (UpdateKey data (get record "id")) Hq Hid w1)
        as (r & w' & H).
      exists w'. rewrite H. by apply ItemsFacts.update_returns in H as ->.
Qed.

(** *** Batch [update] as a sequence of keyed updates *)

Lemma logFree_updateSame accountability data key :
  logFree (updateSame env collection accountability data key).
Proof.
  unfold updateSame.
  apply logFree_bind.
  { destruct (notAdmin accountability); [|apply logFree_ret].
    apply logFree_bind; [apply logFree_call|]. intros _. apply logFree_call. }
  intros payload. apply logFree_bind; [|intros _; apply logFree_ret].
  apply logFree_transaction.
  apply logFree_bind; [apply logFree_call|]. intros p1.
  apply logFree_bind; [apply logFree_call|]. intros p2.
  apply logFree_bind; [apply logFree_call|]. intros _. apply logFree_call.
Qed.

(** The batch loop does on a storage what it does there with another log
    and other keys collected so far. *)
Lemma batch_loop_restart accountability data keys d l keys' w' acc l0 :
  forOf data (batchStep env collection accountability) keys
    {| db := d; log := l |} = (Returns keys', w') →
  ∃ w'',
    forOf data (batchStep env collection accountability) acc
      {| db := d; log := l0 |}
    = (Returns (acc ++ map (fun single => get single (primary env collection))
                           data), w'')
    ∧ db w'' = db w'.
Proof.
  revert keys d l acc l0. induction data as [|single data IH];
    intros keys d l acc l0.
  - cbn. intros [= <- <-]. eexists. by rewrite app_nil_r.
  - cbn [forOf map]. intros H.
    apply bind_inv_returns in H as (keys1 & w1 & Hstep & Hrest).
    unfold batchStep in Hstep. unfold batchStep at 1.
    destruct (truthy (get single (primary env collection))) eqn:Hkey;
      cbn [negb] in *; [|discriminate].
    apply bind_inv_returns in Hstep as (u & w2 & Hsame & [= <- <-]).
    destruct (logFree_returns _ _ _ _ l0 (logFree_updateSame _ _ _) Hsame)
      as (w3 & Hsame' & Hdb).
    cbn [db] in Hsame'.
    destruct w2 as [d2 l2], w3 as [d3 l3]. cbn [db] in Hdb. subst d3.
    destruct (IH _ _ _ (acc ++ [get single (primary env collection)]) l3 Hrest)
      as (w'' & Hloop & Hdb'').
    exists w''. split; [|exact Hdb''].
    erewrite bind_returns; [|erewrite bind_returns; [reflexivity | exact Hsame']].
    rewrite Hloop. by rewrite <- app_assoc.
Qed.

(** X16. Where the gate is not consulted (no accountability, or an
    administrator), a batch [update] that returns has done to the storage
    what the keyed updates of its elements do one after the other: the
    update of the first element with its own key returns, the batch of the
    remaining elements returns on the state that update left, and ends on
    the storage the whole batch ended on. *)
Theorem batch_is_sequence accountability single more w r w' :
  notAdmin accountability = false →
  update env collection accountability (UpdateBatch (single :: more)) w
  = (Returns r, w') →
  let keyOf := fun s : Item => get s (primary env collection) in
  r = Many (keyOf single :: map keyOf more)
  ∧ ∃ w1 w2,
      update env collection accountability (UpdateKey single (keyOf single)) w
      = (Returns (One (keyOf single)), w1)
      ∧ update env collection accountability (UpdateBatch more) w1
        = (Returns (Many (map keyOf more)), w2)
      ∧ db w2 = db w'.
Proof.
  intros _ H keyOf.
  pose proof (ItemsFacts.update_returns _ _ _ _ _ _ _ H) as Hr.
  split; [exact Hr|].
  rewrite ItemsFacts.update_batch in H.
  apply bind_inv_returns in H as (keys & wt & H & [= _ <-]).
  apply transaction_inv_returns in H as (wb & H & ->).
  cbn [forOf] in H.
  apply bind_inv_returns in H as (keys1 & wa & Hstep & Hrest).
  unfold batchStep in Hstep. fold (keyOf single) in Hstep.
  destruct (truthy (keyOf single)) eqn:Hkey; cbn [negb] in Hstep;
    [|discriminate].
  apply bind_inv_returns in Hstep as (u & wa' & Hsame & [= <- <-]).
  pose proof (ItemsFacts.updateSame_returns _ _ _ _ _ _ _ _ Hsame) as ->.
  destruct (logFree_returns _ _ _ _ (log w) (logFree_updateSame _ _ _) Hsame)
    as (w1 & Hsame1 & Hdb1).
  cbn [db] in Hsame1.
  exists w1. destruct w as [d l]. cbn [db log] in *.
  destruct wa' as [da la]. cbn [db] in Hdb1.
  destruct w1 as [d1 l1]. cbn [db] in Hdb1. subst d1.
  destruct (batch_loop_restart _ _ _ _ _ _ _ [] (l1 ++ [Begin]) Hrest)
    as (w'' & Hloop & Hdb'').
  eexists. split; [|split].
  - unfold update. by rewrite ItemsFacts.updateRec_keyed.
  - rewrite ItemsFacts.update_batch.
    erewrite bind_returns; [reflexivity|].
    apply transaction_returns. cbn [db log]. exact Hloop.
  - cbn [db]. exact Hdb''.
Qed.

End More.
End ItemsMore.

(** ** More on [oracle_12.ts] *)

Module JsonMore.
Import JsString JsonHelperOracle_12 StringFacts.

(** *** [indexOf] *)

Lemma indexOf_cons sub c s :
  indexOf sub (String c s)
  = if String.prefix sub (String c s) then 0
    else if indexOf sub s <? 0 then -1 else 1 + indexOf sub s.
Proof. reflexivity. Qed.

Lemma indexOf_lower sub s : -1 ≤ indexOf sub s.
Proof.
  induction s as [|c s IH].
  - cbn [indexOf]. destruct (String.prefix sub ""); lia.
  - rewrite indexOf_cons. destruct (String.prefix sub _); [lia|].
    destruct (Z.ltb_spec (indexOf sub s) 0); lia.
Qed.

(** [indexOf] is [0] exactly when the string starts with the token. *)
Lemma indexOf_zero sub s : indexOf sub s = 0 ↔ startsWith sub s = true.
Proof.
  unfold startsWith. destruct s as [|c s].
  - cbn [indexOf]. destruct (String.prefix sub ""); [done|].
    split; [lia | done].
  - rewrite indexOf_cons. destruct (String.prefix sub _); [done|].
    pose proof (indexOf_lower sub s).
    destruct (Z.ltb_spec (indexOf sub s) 0); split; (lia || done).
Qed.

(** [indexOf] is [-1] exactly when the token does not occur. *)
Lemma indexOf_minus_one sub s : indexOf sub s = -1 ↔ occurs sub s = false.
Proof.
  induction s as [|c s IH].
  - cbn [indexOf occurs].
    destruct (String.prefix sub ""); [split; [lia|done] | done].
  - rewrite indexOf_cons, occurs_cons.
    destruct (String.prefix sub _); [split; [lia|done]|].
    cbn [orb]. rewrite <- IH. pose proof (indexOf_lower sub s).
    destruct (Z.ltb_spec (indexOf sub s) 0); lia.
Qed.

(** *** Classification of the nodes by [preProcess] *)

(** X17. No node is in both lists of [preProcess]; and the nodes that are
    in neither, which [preProcess] hands to no strategy unless another
    node is select-only, are exactly the nodes with an empty query whose
    path starts with one wildcard token and does not contain the other. *)
Theorem node_classification node :
  isSelectQuery node && isJoinQuery node = false
  ∧ (isSelectQuery node || isJoinQuery node = false
     ↔ queryKeys (query node) = 0%nat
       ∧ ((startsWith "[*]" (jsonPath node) = true
           ∧ indexOf ".*" (jsonPath node) = -1)
          ∨ (startsWith ".*" (jsonPath node) = true
             ∧ indexOf "[*]" (jsonPath node) = -1))).
Proof.
  unfold isSelectQuery, isJoinQuery.
  rewrite <- !indexOf_zero.
  pose proof (indexOf_lower "[*]" (jsonPath node)) as Ha.
  pose proof (indexOf_lower ".*" (jsonPath node)) as Hb.
  assert (Hnot : ¬ (indexOf "[*]" (jsonPath node) = 0
                    ∧ indexOf ".*" (jsonPath node) = 0)).
  { rewrite !indexOf_zero. unfold startsWith.
    destruct (jsonPath node) as [|c p]; [by intros [? _]|].
    intros [H1 H2]. apply prefix_cons in H1 as [<- _].
    by apply prefix_cons in H2 as [? _]. }
  destruct (Z.eqb_spec (indexOf "[*]" (jsonPath node)) (-1)),
    (Z.eqb_spec (indexOf ".*" (jsonPath node)) (-1)),
    (Nat.eqb_spec (queryKeys (query node)) 0),
    (Z.ltb_spec 0 (indexOf "[*]" (jsonPath node))),
    (Z.ltb_spec 0 (indexOf ".*" (jsonPath node))),
    (Nat.ltb_spec 0 (queryKeys (query node)));
    cbn; (split; [done || lia|]); split; intros; lia.
Qed.

Lemma filter_all {A} (P : A → bool) l :
  Forall (fun x => P x = true) l → List.filter P l = l.
Proof.
  induction 1 as [|x l Hx Hl IH]; [done|]. cbn. by rewrite Hx, IH.
Qed.

Lemma filter_none {A} (P : A → bool) l :
  Forall (fun x => P x = false) l → List.filter P l = [].
Proof.
  induction 1 as [|x l Hx Hl IH]; [done|]. cbn. by rewrite Hx.
Qed.

Lemma select_excludes_join node :
  isSelectQuery node = true → isJoinQuery node = false.
Proof.
  unfold isSelectQuery, isJoinQuery.
  destruct (Z.eqb_spec (indexOf "[*]" (jsonPath node)) (-1)),
    (Z.eqb_spec (indexOf ".*" (jsonPath node)) (-1)),
    (Nat.eqb_spec (queryKeys (query node)) 0),
    (Z.ltb_spec 0 (indexOf "[*]" (jsonPath node))),
    (Z.ltb_spec 0 (indexOf ".*" (jsonPath node))),
    (Nat.ltb_spec 0 (queryKeys (query node)));
    cbn; done || lia.
Qed.

Lemma wildcardPath_join node :
  wildcardPath node = true →
  isJoinQuery node = true ∧ isSelectQuery node = false.
Proof.
  intros H. assert (Hj : isJoinQuery node = true).
  { unfold isJoinQuery. fold (wildcardPath node). by rewrite H. }
  split; [exact Hj|].
  destruct (isSelectQuery node) eqn:Hs; [|done].
  apply select_excludes_join in Hs. congruence.
Qed.

(** X18. On nodes of one kind [preProcess] does use one strategy for each
    node: when every node is select-only, all are extracted in the main
    select list and none is joined; when every node has a wildcard behind
    the first character of its path and no nested filter, each gets its
    derived table, in order, and none is extracted. *)
Theorem preProcess_uniform nodes table primaryKey next :
  let calls := (preProcess nodes table primaryKey next).1 in
  (Forall (fun n => isSelectQuery n = true) nodes →
   joinedNodes calls = [] ∧ extractedNodes calls = nodes)
  ∧ (Forall (fun n => wildcardPath n = true ∧ filter (query n) = None) nodes →
     joinedNodes calls = nodes ∧ extractedNodes calls = []).
Proof.
  intros calls.
  destruct (JsonFacts.preProcess_nodes nodes table primaryKey next)
    as [Hj He].
  fold calls in Hj, He. rewrite Hj, He.
  split; intros Hall.
  - rewrite (filter_all _ _ Hall). split.
    + apply filter_none. eapply Forall_impl; [exact Hall|].
      intros n Hn. by apply select_excludes_join.
    + by destruct nodes.
  - rewrite filter_all, filter_none; [done| |].
    + eapply Forall_impl; [exact Hall|].
      intros n [Hn _]. by apply wildcardPath_join.
    + eapply Forall_impl; [exact Hall|].
      intros n [Hn _]. by apply wildcardPath_join.
Qed.

(** *** Segments and wildcards *)

Section Pieces.
Variable sep : string.
Hypothesis sep_nonempty : sep ≠ "".

Lemma split_without_sep s : occurs sep s = false → split sep s = [s].
Proof.
  unfold split. induction s as [|c s IH]; [done|].
  rewrite occurs_cons. intros [Hpre Hs]%orb_false_iff.
  cbn [splitFrom]. rewrite Hpre, (IH Hs). reflexivity.
Qed.

Lemma length_consHead c l : l ≠ [] → length (consHead c l) = length l.
Proof. by destruct l. Qed.

Lemma split_with_sep s : occurs sep s = true → (2 ≤ length (split sep s))%nat.
Proof.
  unfold split. induction s as [|c s IH].
  - by rewrite occurs_nil.
  - rewrite occurs_cons. cbn [splitFrom].
    destruct (String.prefix sep (String c s)) eqn:Hpre.
    + intros _.
      destruct (splitFrom sep (String.length sep - 1) s) as [|h t] eqn:E;
        [by apply splitFrom_nonempty in E | cbn; lia].
    + cbn [orb]. intros Hs.
      rewrite length_consHead by apply splitFrom_nonempty. by apply IH.
Qed.

End Pieces.

Lemma length_addBack tok l : length (addBack tok l) = length l.
Proof.
  induction l as [|p [|q l] IH]; [done..|].
  rewrite addBack_cons2. cbn [length] in *. by rewrite IH.
Qed.

Lemma length_flat_map_lower {A B} (f : A → list B) l :
  (∀ x, f x ≠ []) → (length l ≤ length (flat_map f l))%nat.
Proof.
  intros Hf. induction l as [|x l IH]; [done|].
  cbn [flat_map]. rewrite length_app. specialize (Hf x).
  destruct (f x); [done | cbn in *; lia].
Qed.

Lemma rawParts_plain path :
  occurs "[*]" path = false → occurs ".*" path = false →
  rawParts path = [path].
Proof.
  intros Ha Hb. unfold rawParts. rewrite (split_without_sep "[*]") by done.
  cbn. rewrite (split_without_sep ".*") by done. reflexivity.
Qed.

Lemma rawParts_nonempty path : (1 ≤ length (rawParts path))%nat.
Proof.
  unfold rawParts.
  etrans; [|apply length_flat_map_lower;
            intros q; apply addBack_nonempty, splitFrom_nonempty].
  rewrite length_addBack.
  unfold split. destruct (splitFrom "[*]" 0 path) as [|h t] eqn:E;
    [by apply splitFrom_nonempty in E | cbn; lia].
Qed.

Lemma rawParts_wild path :
  occurs "[*]" path || occurs ".*" path = true →
  (2 ≤ length (rawParts path))%nat.
Proof.
  destruct (occurs "[*]" path) eqn:Ha; cbn [orb].
  - intros _. unfold rawParts.
    pose proof (length_flat_map_lower
                  (fun p => addBack ".*" (split ".*" p))
                  (addBack "[*]" (split "[*]" path))
                  ltac:(intros q; apply addBack_nonempty, splitFrom_nonempty))
      as Hlow.
    rewrite length_addBack in Hlow.
    pose proof (split_with_sep "[*]" ltac:(done) path Ha). lia.
  - intros Hb. unfold rawParts. rewrite (split_without_sep "[*]") by done.
    cbn. rewrite app_nil_r, length_addBack.
    exact (split_with_sep ".*" ltac:(done) path Hb).
Qed.

(** X19. The wildcard test of [preProcess] and the segments of
    [splitQuery] agree: [splitQuery] returns a single segment, the path
    itself behind its root marker, exactly when [indexOf] finds neither
    [[*]] nor [.*] in the path; otherwise it returns at least two. *)
Theorem splitQuery_single_segment path :
  (indexOf "[*]" path = -1 ∧ indexOf ".*" path = -1
   ↔ length (splitQuery path) = 1%nat)
  ∧ (indexOf "[*]" path = -1 → indexOf ".*" path = -1 →
     splitQuery path = [withRoot path])
  ∧ (1 ≤ length (splitQuery path))%nat.
Proof.
  rewrite !indexOf_minus_one. unfold splitQuery. rewrite !length_map.
  split; [|split; [|apply rawParts_nonempty]].
  - split; [intros [Ha Hb]; by rewrite rawParts_plain|].
    intros Hlen. pose proof (rawParts_wild path) as Hwild.
    destruct (occurs "[*]" path), (occurs ".*" path); cbn [orb] in Hwild;
      try done; specialize (Hwild eq_refl); lia.
  - intros Ha Hb. by rewrite rawParts_plain.
Qed.

(** X20. The segments [buildWithJson] hands to [buildJsonTable]: the root
    path [parts[0]] is always there and starts with [$]; [parts[1]], which
    the simplified branch binds as the field path, is [undefined] exactly
    when the path has no wildcard; so the nodes of [joinQueries] for which
    it is [undefined] are the nodes with a wildcard-free path and a
    non-empty nested query, and for a node with a wildcard behind the
    first character of its path it is defined. *)
Theorem second_segment_defined node :
  let parts := splitQuery (jsonPath node) in
  (∃ root, parts !! 0%nat = Some root ∧ startsWith "$" root = true)
  ∧ (parts !! 1%nat = None
     ↔ indexOf "[*]" (jsonPath node) = -1 ∧ indexOf ".*" (jsonPath node) = -1)
  ∧ (isJoinQuery node = true ∧ parts !! 1%nat = None
     ↔ (0 < queryKeys (query node))%nat
       ∧ indexOf "[*]" (jsonPath node) = -1
       ∧ indexOf ".*" (jsonPath node) = -1)
  ∧ (wildcardPath node = true → is_Some (parts !! 1%nat)).
Proof.
  intros parts.
  assert (Hsome : (1 ≤ length parts)%nat).
  { unfold parts, splitQuery. rewrite length_map. apply rawParts_nonempty. }
  assert (Hsecond : parts !! 1%nat = None
                    ↔ indexOf "[*]" (jsonPath node) = -1
                      ∧ indexOf ".*" (jsonPath node) = -1).
  { rewrite lookup_ge_None, !indexOf_minus_one.
    unfold parts, splitQuery. rewrite length_map.
    pose proof (rawParts_wild (jsonPath node)) as Hwild.
    pose proof (rawParts_plain (jsonPath node)) as Hplain.
    destruct (occurs "[*]" (jsonPath node)), (occurs ".*" (jsonPath node));
      cbn [orb] in Hwild;
      try (specialize (Hwild eq_refl); split; [lia | by intros [? ?]]).
    rewrite Hplain by done. cbn. split; [done | lia]. }
  split; [|split; [exact Hsecond|split]].
  - assert (Hstart : Forall (fun q => startsWith "$" q = true) parts).
    { unfold parts, splitQuery. apply Forall_map, Forall_forall.
      intros p _. apply JsonFacts.withRoot_startsWith. }
    destruct parts as [|root more]; [cbn in Hsome; lia|].
    apply Forall_cons in Hstart as [Hroot _]. eauto.
  - rewrite Hsecond. unfold isJoinQuery.
    destruct (Z.ltb_spec 0 (indexOf "[*]" (jsonPath node))),
      (Z.ltb_spec 0 (indexOf ".*" (jsonPath node))),
      (Nat.ltb_spec 0 (queryKeys (query node)));
      cbn; split; intros; (lia || (intuition (lia || done))).
  - intros Hwild. apply not_eq_None_Some. intros E.
    apply Hsecond in E as [Ha Hb]. unfold wildcardPath in Hwild.
    rewrite Ha, Hb in Hwild. done.
Qed.

End JsonMore.

(** ** The further properties on the concrete environments *)

Module MoreWitnesses.
Import ItemsService Demo.

Lemma run_eta {A} (run : Outcome A * World Store) r :
  run.1 = r → run = (r, run.2).
Proof. intros <-. by destruct run. Defined.

Lemma create_atomic_witness :
  let w := withArticles [stored 1 "a" "b"] in
  let run := create Refusing.env "articles" (Some editor)
               (One (article "t" "s")) w in
  run.1 = Throws ForbiddenException ∧ db run.2 = db w.
Proof.
  intros w run.
  assert (H : run.1 = Throws ForbiddenException) by (vm_compute; reflexivity).
  split; [exact H|].
  exact (ItemsMore.create_atomic Refusing.env "articles" (Some editor)
           (One (article "t" "s")) w _ _ (run_eta run _ H)).
Defined.

Lemma create_audit_witness :
  let w := withArticles [stored 1 "a" "b"] in
  let run := create env "articles" (Some editor)
               (Many [article "t1" "s1"; article "t2" "s2"]) w in
  run.1 = Returns (Many [VNum 2; VNum 3])
  ∧ ∃ calls keys,
      log run.2 = log w ++ calls
      ∧ Many [VNum 2; VNum 3] = Many keys
      ∧ map (map Activity.item) (activityOf calls) = [keys].
Proof.
  intros w run.
  assert (H : run.1 = Returns (Many [VNum 2; VNum 3]))
    by (vm_compute; reflexivity).
  split; [exact H|].
  destruct (ItemsMore.create_audit env "articles" (Some editor)
              (Many [article "t1" "s1"; article "t2" "s2"]) w _ _
              (run_eta run _ H)) as (calls & keys & Hlog & Hr & Hact).
  exists calls, keys. split; [exact Hlog|]. split; [exact Hr|].
  rewrite Hact. cbn [map]. by rewrite map_map, map_id.
Defined.


Lemma create_refused_witness :
  let w := withArticles [stored 1 "a" "b"] in
  let data := One (article "t" "s") in
  notAdmin (Some editor) = true
  ∧ insertedRows
      (log (create Refusing.env "articles" (Some editor) data w).2) = [].
Proof.
  intros w data. split; [reflexivity|].
  rewrite (ItemsMore.create_refused Refusing.env "articles" (Some editor) data w
             [article "t" "s"] (db w) [article "t" "s"] (db w)
             ForbiddenException (db w) eq_refl eq_refl eq_refl eq_refl).
  reflexivity.
Defined.

Lemma update_refused_witness :
  let w := withArticles [stored 1 "a" "b"] in
  let data := article "t" "s" in
  notAdmin (Some editor) = true
  ∧ ItemsService.update Refusing.env "articles" (Some editor) (UpdateKey data (VNum 1)) w
    = (Throws ForbiddenException,
       {| db := db w;
          log := [AuthCheckAccess "update" "articles" (Many [VNum 1])] |})
  ∧ ItemsService.update Refusing.validatingEnv "articles" (Some editor)
      (UpdateKeys data [VNum 1]) w
    = (Throws ForbiddenException,
       {| db := db w;
          log := [AuthCheckAccess "update" "articles" (Many [VNum 1]);
                  AuthProcessValues "validate" "articles" (One data)] |}).
Proof.
  intros w data. split; [reflexivity|]. split.
  - exact (proj1 (ItemsMore.update_refused Refusing.env "articles"
                    (Some editor) (UpdateKey data (VNum 1)) data (One (VNum 1))
                    w eq_refl eq_refl)
             ForbiddenException (db w) eq_refl).
  - exact (proj2 (ItemsMore.update_refused Refusing.validatingEnv "articles"
                    (Some editor) (UpdateKeys data [VNum 1]) data
                    (Many [VNum 1]) w eq_refl eq_refl)
             tt (db w) ForbiddenException (db w) eq_refl eq_refl).
Defined.

Lemma update_rows_are_columns_witness :
  let w := withArticles [stored 1 "a" "b"] in
  let data : Item := {["title" := VStr "t"; "alias" := VStr "x"]} in
  let row : Item := {["title" := VStr "t"]} in
  row ∈ updatedRows
          (callsOf (ItemsService.update env "articles" None (UpdateKey data (VNum 1))) (db w))
  ∧ ∀ k, is_Some (row !! k) → k ∈ columns env "articles".
Proof.
  intros w data row.
  assert (H : row ∈ updatedRows
                      (callsOf (ItemsService.update env "articles" None
                                  (UpdateKey data (VNum 1))) (db w))).
  { apply list_elem_of_In. vm_compute. left. reflexivity. }
  split; [exact H|].
  exact (ItemsMore.update_rows_are_columns env "articles" None
           (UpdateKey data (VNum 1)) (db w) row H).
Defined.

Lemma admin_bypasses_gate_witness :
  let w := withArticles [stored 1 "a" "b"] in
  notAdmin (Some Refusing.administrator) = false
  ∧ existsb isGate
      (callsOf (create Refusing.env "articles" (Some Refusing.administrator)
                  (One (article "t" "s"))) (db w)) = false
  ∧ existsb isGate
      (callsOf (ItemsService.update Refusing.env "articles" (Some Refusing.administrator)
                  (UpdateBatch [stored 1 "x" "y"])) (db w)) = false.
Proof.
  intros w. split; [reflexivity|].
  exact (ItemsMore.admin_bypasses_gate Refusing.env "articles"
           (Some Refusing.administrator) (One (article "t" "s"))
           (UpdateBatch [stored 1 "x" "y"]) (db w) eq_refl).
Defined.

Lemma update_atomic_ungated_witness :
  let w := withArticles [stored 1 "a" "b"] in
  let run := ItemsService.update env "articles" None
               (UpdateBatch [stored 1 "x" "y"; article "no" "key"]) w in
  notAdmin None = false
  ∧ run.1 = Throws missingKey
  ∧ db run.2 = db w.
Proof.
  intros w run. split; [reflexivity|].
  assert (H : run.1 = Throws missingKey) by (vm_compute; reflexivity).
  split; [exact H|].
  exact (ItemsMore.update_atomic_ungated env "articles" None
           (UpdateBatch [stored 1 "x" "y"; article "no" "key"]) w _ _
           eq_refl (run_eta run _ H)).
Defined.

Lemma delete_trace_witness :
  let w := withArticles [stored 1 "a" "b"; stored 2 "c" "d"] in
  let run := ItemsService.delete env "articles" (Some Refusing.administrator)
               (Many [VNum 1; VNum 2]) w in
  run.1 = Returns (Many [VNum 1; VNum 2])
  ∧ map (map Activity.item) (activityOf (log run.2)) = [[VNum 1; VNum 2]]
  ∧ table (db run.2) "articles" = [].
Proof.
  intros w run.
  assert (H : run.1 = Returns (Many [VNum 1; VNum 2]))
    by (vm_compute; reflexivity).
  split; [exact H|].
  destruct (ItemsMore.delete_trace env "articles" (Some Refusing.administrator)
              (Many [VNum 1; VNum 2]) w _ _ (run_eta run _ H)) as [_ Hlog].
  split; [by rewrite Hlog | vm_compute; reflexivity].
Defined.

Lemma delete_atomic_witness :
  let w := withArticles [stored 1 "a" "b"] in
  let run := ItemsService.delete Refusing.env "articles"
               (Some Refusing.administrator) (One (VNum 1)) w in
  run.1 = Throws ForbiddenException ∧ db run.2 = db w.
Proof.
  intros w run.
  assert (H : run.1 = Throws ForbiddenException) by (vm_compute; reflexivity).
  split; [exact H|].
  exact (ItemsMore.delete_atomic Refusing.env "articles"
           (Some Refusing.administrator) (One (VNum 1)) w _ _ (run_eta run _ H)).
Defined.

Lemma delete_refused_witness :
  let w := withArticles [stored 1 "a" "b"] in
  adminIsNotFalse (Some Refusing.administrator) = true
  ∧ ItemsService.delete Refusing.env "articles" (Some Refusing.administrator)
      (One (VNum 1)) w
    = (Throws ForbiddenException,
       {| db := db w;
          log := [AuthCheckAccess "delete" "articles" (One (VNum 1))] |}).
Proof.
  intros w. split; [reflexivity|].
  exact (ItemsMore.delete_refused Refusing.env "articles"
           (Some Refusing.administrator) (One (VNum 1)) w ForbiddenException
           (db w) eq_refl eq_refl).
Defined.

Lemma upsertSingleton_dispatch_witness :
  let w := withArticles [stored 1 "a" "b"] in
  let data := article "t" "s" in
  truthy (get ({["id" := VNum 1]} : Item) "id") = true
  ∧ (∃ w', upsertSingleton env "articles" (Some editor) data w
           = (Returns (One (VNum 1)), w'))
  ∧ upsertSingleton env "articles" (Some editor) data empty
    = create env "articles" (Some editor) (One data)
        {| db := db empty; log := [SelectFirst "id" "articles"] |}.
Proof.
  intros w data. split; [reflexivity|].
  destruct (ItemsMore.upsertSingleton_dispatch env "articles" (Some editor)
              data w (db w)) as (_ & _ & Hrow).
  pose (record := ({["id" := VNum 1]} : Item)).
  assert (Hprobe : Knex.selectFirst (knex env) (primary env "articles")
                     "articles" (db w) = (Returns (Some record), db w))
    by (vm_compute; reflexivity).
  assert (Hid : truthy (get record "id") = true) by (vm_compute; reflexivity).
  destruct (Hrow record Hprobe Hid) as [_ Hreturns].
  split; [exact (Hreturns (DemoFacts.demo_quiet _))|].
  exact (proj1 (ItemsMore.upsertSingleton_dispatch env "articles"
                  (Some editor) data empty (db empty)) eq_refl).
Defined.

Lemma batch_is_sequence_witness :
  let w := withArticles [stored 1 "a" "b"; stored 2 "c" "d"] in
  let first := stored 1 "x" "y" in
  let second := stored 2 "z" "u" in
  let run := ItemsService.update env "articles" (Some Refusing.administrator)
               (UpdateBatch [first; second]) w in
  notAdmin (Some Refusing.administrator) = false
  ∧ run.1 = Returns (Many [VNum 1; VNum 2])
  ∧ ∃ w1 w2,
      ItemsService.update env "articles" (Some Refusing.administrator)
        (UpdateKey first (VNum 1)) w
      = (Returns (One (VNum 1)), w1)
      ∧ ItemsService.update env "articles" (Some Refusing.administrator)
          (UpdateBatch [second]) w1
        = (Returns (Many [VNum 2]), w2)
      ∧ db w2 = db run.2.
Proof.
  intros w first second run. split; [reflexivity|].
  assert (H : run.1 = Returns (Many [VNum 1; VNum 2]))
    by (vm_compute; reflexivity).
  split; [exact H|].
  exact (proj2 (ItemsMore.batch_is_sequence env "articles"
                  (Some Refusing.administrator) first [second] w _ _
                  eq_refl (run_eta run _ H))).
Defined.

Lemma preProcess_uniform_witness :
  let node path :=
    {| JsonHelperOracle_12.name := "data";
       JsonHelperOracle_12.fieldKey := path;
       JsonHelperOracle_12.jsonPath := path;
       JsonHelperOracle_12.query := emptyQuery |} in
  let plain := [node "$.a"; node "$.b.c"] in
  let wild := [node "$.a[*].b"; node "$.c.*"] in
  Forall (fun n => JsonHelperOracle_12.isSelectQuery n = true) plain
  ∧ Forall (fun n => wildcardPath n = true
                     ∧ filter (JsonHelperOracle_12.query n) = None) wild
  ∧ JsonHelperOracle_12.extractedNodes
      (JsonHelperOracle_12.preProcess plain "articles" "id" 0).1 = plain
  ∧ JsonHelperOracle_12.joinedNodes
      (JsonHelperOracle_12.preProcess wild "articles" "id" 0).1 = wild.
Proof.
  intros node plain wild.
  assert (Hplain : Forall (fun n => JsonHelperOracle_12.isSelectQuery n = true)
                     plain) by (repeat constructor).
  assert (Hwild : Forall (fun n => wildcardPath n = true
                                  ∧ filter (JsonHelperOracle_12.query n) = None)
                    wild) by (repeat constructor).
  split; [exact Hplain|]. split; [exact Hwild|]. split.
  - exact (proj2 (proj1 (JsonMore.preProcess_uniform plain "articles" "id" 0)
                    Hplain)).
  - exact (proj1 (proj2 (JsonMore.preProcess_uniform wild "articles" "id" 0)
                    Hwild)).
Defined.

Lemma second_segment_defined_witness :
  let nested :=
    {| JsonHelperOracle_12.name := "data";
       JsonHelperOracle_12.fieldKey := "a";
       JsonHelperOracle_12.jsonPath := "$.a";
       JsonHelperOracle_12.query :=
         {| filter := Some ∅; limit := None; rest := ∅ |} |} in
  let wild :=
    {| JsonHelperOracle_12.name := "data";
       JsonHelperOracle_12.fieldKey := "b";
       JsonHelperOracle_12.jsonPath := "$.a[*].b";
       JsonHelperOracle_12.query := emptyQuery |} in
  (JsonHelperOracle_12.isJoinQuery nested = true
   ∧ JsonHelperOracle_12.splitQuery "$.a" !! 1%nat = None)
  ∧ wildcardPath wild = true
  ∧ is_Some (JsonHelperOracle_12.splitQuery "$.a[*].b" !! 1%nat).
Proof.
  intros nested wild. split; [|split; [reflexivity|]].
  - apply (proj2 (proj1 (proj2 (proj2 (JsonMore.second_segment_defined nested))))).
    split; [vm_compute; lia|]. split; vm_compute; reflexivity.
  - exact (proj2 (proj2 (proj2 (JsonMore.second_segment_defined wild)))
             eq_refl).
Defined.

End MoreWitnesses.
